(** * deepstream.io client: argument normalizers and the Record facade

    A shallow embedding of [src/util/utils.ts] ([normalizeSetArguments],
    [normalizeArguments]) and of [dist/src/record/record.js] (class
    [Record]), together with the properties of the specification that
    concern them.

    JavaScript values are an inductive type; objects live in a heap and are
    handled by reference, so that object identity ([===] on objects, "the
    object itself is returned") is visible.  Code that can throw or mutate
    runs in a small state-and-exception monad: a thrown exception keeps the
    mutations made before it, as in JavaScript. *)

From stdpp Require Import gmap strings list fin_maps.

Local Open Scope string_scope.
Local Open Scope list_scope.

(** ** Values *)

Definition loc := positive.

(** Numbers are only ever inspected with [typeof], [===] and truthiness;
    finite numbers are kept abstractly as integers, [NaN] is kept apart
    because [NaN === NaN] is false. *)
Inductive number :=
| NaN
| Num (z : Z).

Inductive value :=
| VUndef
| VNull
| VBool (b : bool)
| VNum (n : number)
| VStr (s : string)
| VSymbol (id : nat)
| VFun (id : nat)
| VObj (l : loc).

Inductive jstype :=
| TUndefined | TObject | TBoolean | TNumber | TString | TSymbol | TFunction.

#[global] Instance number_eq_dec : EqDecision number.
Proof. solve_decision. Defined.
#[global] Instance value_eq_dec : EqDecision value.
Proof. solve_decision. Defined.
#[global] Instance jstype_eq_dec : EqDecision jstype.
Proof. solve_decision. Defined.

(** [typeof v]; note [typeof null === 'object']. *)
Definition typeof (v : value) : jstype :=
  match v with
  | VUndef => TUndefined
  | VNull => TObject
  | VBool _ => TBoolean
  | VNum _ => TNumber
  | VStr _ => TString
  | VSymbol _ => TSymbol
  | VFun _ => TFunction
  | VObj _ => TObject
  end.

(** [a === b]. *)
Definition strict_eq (a b : value) : bool :=
  match a, b with
  | VNum NaN, _ | _, VNum NaN => false
  | _, _ => bool_decide (a = b)
  end.

(** [a !== b]. *)
Definition strict_neq (a b : value) : bool := negb (strict_eq a b).

(** [ToBoolean], as used by [!x] and [if (x)]. *)
Definition to_boolean (v : value) : bool :=
  match v with
  | VUndef | VNull => false
  | VBool b => b
  | VNum NaN => false
  | VNum (Num z) => negb (Z.eqb z 0)
  | VStr s => negb (Nat.eqb (String.length s) 0)
  | VSymbol _ | VFun _ | VObj _ => true
  end.

(** [v.length] for the values the set normalizer can hold in its [path]
    slot: a string has its length, [false] (like every other primitive but
    [undefined] and [null]) has none. *)
Definition length_of (v : value) : value :=
  match v with
  | VStr s => VNum (Num (Z.of_nat (String.length s)))
  | _ => VUndef
  end.

(** [args[i]] on an [arguments] object: [undefined] out of range. *)
Definition arg_at (args : list value) (i : nat) : value :=
  default VUndef (args !! i).

(** ** Exceptions and state *)

Inductive error :=
| TypeError
| Error (msg : string).

(** How a call completes: normally with a value, or by throwing. *)
Inductive completion (A : Type) :=
| Normal (a : A)
| Throw (e : error).
Arguments Normal {A} a.
Arguments Throw {A} e.

#[global] Instance error_eq_dec : EqDecision error.
Proof. solve_decision. Defined.

(** A computation over a mutable state [S] that returns or throws. *)
Definition M (S A : Type) : Type := S -> completion A * S.

Definition ret {S A} (a : A) : M S A := fun s => (Normal a, s).
Definition throw {S A} (e : error) : M S A := fun s => (Throw e, s).
Definition bind {S A B} (m : M S A) (k : A -> M S B) : M S B :=
  fun s => match m s with
           | (Normal a, s') => k a s'
           | (Throw e, s') => (Throw e, s')
           end.
Definition gets {S A} (f : S -> A) : M S A := fun s => (Normal (f s), s).
Definition modify {S} (f : S -> S) : M S unit := fun s => (Normal tt, f s).
Definition lift_completion {S A} (r : completion A) : M S A :=
  fun s => (r, s).

Notation "'do' x <- m ; k" := (bind m (fun x => k))
  (at level 10, x name, m at level 100, k at level 200).
Notation "'exec' m ; k" := (bind m (fun _ => k))
  (at level 10, m at level 100, k at level 200).

(** [for (let i = 0; i < xs.length; i++) body(xs[i])]. *)
Fixpoint for_each {S A} (body : A -> M S unit) (xs : list A) : M S unit :=
  match xs with
  | [] => ret tt
  | x :: xs' => exec body x; for_each body xs'
  end.

(** [xs.filter(keep)] with a callback that may throw: the first exception
    aborts the whole call. *)
Fixpoint filterM {S A} (keep : A -> M S bool) (xs : list A) : M S (list A) :=
  match xs with
  | [] => ret []
  | x :: xs' =>
      do b <- keep x;
      do rest <- filterM keep xs';
      ret (if b then x :: rest else rest)
  end.

(** ** The set normalizer ([normalizeSetArguments], utils.ts) *)

Record RecordSetArguments := {
  set_path : value;
  set_data : value;
  set_callback : value
}.

#[global] Instance RecordSetArguments_eq_dec : EqDecision RecordSetArguments.
Proof. solve_decision. Defined.

Definition isRootData (data : value) : bool :=
  strict_neq data VUndef && bool_decide (typeof data = TObject).
Definition isNestedData (data : value) : bool :=
  negb (bool_decide (typeof data = TFunction)).
Definition isPath (path : value) : bool :=
  strict_neq path VUndef && bool_decide (typeof path = TString).
Definition isCallback (callback : value) : bool :=
  bool_decide (typeof callback = TFunction).

Definition with_path (r : RecordSetArguments) (v : value) :=
  {| set_path := v; set_data := set_data r; set_callback := set_callback r |}.
Definition with_data (r : RecordSetArguments) (v : value) :=
  {| set_path := set_path r; set_data := v; set_callback := set_callback r |}.
Definition with_callback (r : RecordSetArguments) (v : value) :=
  {| set_path := set_path r; set_data := set_data r; set_callback := v |}.

(** The three arity branches.  Each is guarded by its own [if] in the
    source; the guards exclude one another, so at most one assigns
    [result]. *)
Definition set_arity1 (args : list value) (startIndex : nat) :=
  {| set_path := VUndef;
     set_data := if isRootData (arg_at args startIndex)
                 then arg_at args startIndex else VUndef;
     set_callback := VUndef |}.

Definition set_arity2 (args : list value) (startIndex : nat) :=
  let result := {| set_path := VUndef; set_data := VUndef;
                   set_callback := VUndef |} in
  let result :=
    if negb (isCallback (arg_at args (startIndex + 1)))
       && isNestedData (arg_at args (startIndex + 1))
    then with_path result (if isPath (arg_at args startIndex)
                           then arg_at args startIndex else VBool false)
    else result in
  let result :=
    if isPath (arg_at args startIndex)
    then with_data result (if isNestedData (arg_at args (startIndex + 1))
                           then arg_at args (startIndex + 1) else VUndef)
    else with_data result (if isRootData (arg_at args startIndex)
                           then arg_at args startIndex else VUndef) in
  if negb (isPath (arg_at args startIndex))
  then with_callback result (if isCallback (arg_at args (startIndex + 1))
                             then arg_at args (startIndex + 1)
                             else VBool false)
  else result.

Definition set_arity3 (args : list value) (startIndex : nat) :=
  {| set_path := if isPath (arg_at args startIndex)
                 then arg_at args startIndex else VBool false;
     set_data := if isNestedData (arg_at args (startIndex + 1))
                 then arg_at args (startIndex + 1) else VBool false;
     set_callback := if isCallback (arg_at args (startIndex + 2))
                     then arg_at args (startIndex + 2) else VBool false |}.

(** The validation block under [if (result)]. *)
Definition validate_set (result : RecordSetArguments)
  : completion RecordSetArguments :=
  if strict_neq (set_path result) VUndef
     && strict_eq (length_of (set_path result)) (VNum (Num 0))
     || strict_eq (set_path result) (VBool false)
  then Throw (Error "Invalid set path argument")
  else if strict_eq (set_data result) VUndef
          && negb (to_boolean (set_path result))
          || strict_eq (set_data result) (VBool false)
  then Throw (Error "Invalid set data argument")
  else if strict_neq (set_callback result) VUndef
          && strict_eq (set_callback result) (VBool false)
  then Throw (Error "Invalid set callback argument")
  else Normal result.

(** [startIndex] is an index into [arguments] (default 0). *)
Definition normalizeSetArguments (args : list value) (startIndex : nat)
  : completion RecordSetArguments :=
  let result : option RecordSetArguments := None in
  let result :=
    if bool_decide (length args = startIndex + 1)
    then Some (set_arity1 args startIndex) else result in
  let result :=
    if bool_decide (length args = startIndex + 2)
    then Some (set_arity2 args startIndex) else result in
  let result :=
    if bool_decide (length args = startIndex + 3)
    then Some (set_arity3 args startIndex) else result in
  match result with
  | Some result => validate_set result
  | None => Throw (Error "Invalid set arguments")
  end.

(** ** The store of objects *)

(** What [Object.create(null)], an object literal and an array literal
    make; all three have [typeof] ['object']. *)
Inductive oclass := NullProto | PlainObject | ArrayObject.

Record object := {
  obj_class : oclass;
  obj_props : gmap string value
}.

Abbreviation store := (gmap loc object).

(** [Object.create(null)]: a new object without properties at an unused
    address. *)
Definition object_create_null : M store loc :=
  fun h =>
    let l := fresh (dom h) in
    (Normal l, <[l := {| obj_class := NullProto; obj_props := ∅ |}]> h).

(** [o[name] = v] for an object [o] of the store. *)
Definition set_prop (l : loc) (name : string) (v : value) : M store unit :=
  modify (alter (fun o => {| obj_class := obj_class o;
                             obj_props := <[name := v]> (obj_props o) |}) l).

(** [v[name]] for the names the facade reads, [path] and [callback], which
    no built-in prototype defines: reading from [undefined] or [null] is a
    [TypeError], an object gives its own property or [undefined], another
    primitive gives [undefined].  Objects are plain data: no accessor
    properties. *)
Definition get_prop (name : string) (v : value) : M store value :=
  fun h =>
    match v with
    | VUndef | VNull => (Throw TypeError, h)
    | VObj l =>
        (Normal (default VUndef (o ← h !! l; obj_props o !! name)), h)
    | _ => (Normal VUndef, h)
    end.

(** ** The subscribe normalizer ([normalizeArguments], utils.ts) *)

(** The body of the scanning loop, for [args[i] = a]. *)
Definition scan_body (result : loc) (a : value) : M store unit :=
  if bool_decide (typeof a = TString)
  then set_prop result "path" a
  else if bool_decide (typeof a = TFunction)
  then set_prop result "callback" a
  else if bool_decide (typeof a = TBoolean)
  then set_prop result "triggerNow" a
  else ret tt.

Definition normalizeArguments (args : list value) : M store value :=
  if bool_decide (length args = 1)
     && bool_decide (typeof (arg_at args 0) = TObject)
  then ret (arg_at args 0)
  else
    do result <- object_create_null;
    exec for_each (scan_body result) args;
    ret (VObj result).

(** ** The Record facade (class [Record], record.js) *)

Inductive event :=
| RECORD_READY | RECORD_DISCARDED | RECORD_DELETED | RECORD_ERROR.

(** The calls the facade makes on the underlying record, [this.record]. *)
Inductive call :=
| CallOn (e : event)
| CallGet (path : value)
| CallSet (parameters : RecordSetArguments)
| CallSetWithAck (parameters : RecordSetArguments)
| CallSubscribe (parameters : value)
| CallUnsubscribe (parameters : value)
| CallDiscard
| CallDelete (callback : value)
| CallSetMergeStrategy (mergeStrategy : value).

#[global] Instance event_eq_dec : EqDecision event.
Proof. solve_decision. Defined.
#[global] Instance call_eq_dec : EqDecision call.
Proof. solve_decision. Defined.

(** The state a facade method can see or change: the store of objects,
    the field [this.subscriptions], and the sequence of calls received so
    far by [this.record]. *)
Record facade := {
  heap : store;
  subscriptions : list value;
  calls : list call
}.

Definition with_heap {A} (m : M store A) : M facade A :=
  fun st =>
    let (r, h) := m (heap st) in
    (r, {| heap := h; subscriptions := subscriptions st;
           calls := calls st |}).

Definition set_subscriptions (subs : list value) (st : facade) : facade :=
  {| heap := heap st; subscriptions := subs; calls := calls st |}.

(** [this.subscriptions.push(v)]. *)
Definition push_subscription (v : value) (st : facade) : facade :=
  set_subscriptions (subscriptions st ++ [v]) st.

Section RecordFacade.

(** The underlying record is an outside collaborator.  A call on it is
    recorded, and answered by [reply] from the calls made before; it
    returns normally and leaves the store and the facade's fields
    alone. *)
Variable reply : list call -> call -> value.

Definition record_call (c : call) : M facade value :=
  fun st =>
    (Normal (reply (calls st) c),
     {| heap := heap st; subscriptions := subscriptions st;
        calls := calls st ++ [c] |}).

(** [new Record(record)] in store [h], the underlying record having
    received [log] before.  The re-emission of the four events itself,
    the getters [name], [isReady], [version] and [whenReady] are not
    modelled. *)
Definition new_Record (h : store) (log : list call) : facade :=
  {| heap := h;
     subscriptions := [];
     calls := log ++ [CallOn RECORD_READY; CallOn RECORD_DISCARDED;
                      CallOn RECORD_DELETED; CallOn RECORD_ERROR] |}.

Definition Record_get (path : value) : M facade value :=
  record_call (CallGet path).

Definition Record_set (arguments : list value) : M facade value :=
  do parameters <- lift_completion (normalizeSetArguments arguments 0);
  record_call (CallSet parameters).

Definition Record_setWithAck (arguments : list value) : M facade value :=
  do parameters <- lift_completion (normalizeSetArguments arguments 0);
  record_call (CallSetWithAck parameters).

Definition Record_subscribe (arguments : list value) : M facade value :=
  do parameters <- with_heap (normalizeArguments arguments);
  exec modify (push_subscription parameters);
  exec record_call (CallSubscribe parameters);
  ret VUndef.

(** The callback given to [filter] in [unsubscribe]; [||] evaluates its
    right operand only when the left one is false. *)
Definition differs (parameters subscription : value) : M store bool :=
  do sp <- get_prop "path" subscription;
  do pp <- get_prop "path" parameters;
  if strict_neq sp pp then ret true
  else
    do sc <- get_prop "callback" subscription;
    do pc <- get_prop "callback" parameters;
    ret (strict_neq sc pc).

Definition Record_unsubscribe (arguments : list value) : M facade value :=
  do parameters <- with_heap (normalizeArguments arguments);
  do subs <- gets subscriptions;
  do kept <- with_heap (filterM (differs parameters) subs);
  exec modify (set_subscriptions kept);
  exec record_call (CallUnsubscribe parameters);
  ret VUndef.

(** The loop reads [this.subscriptions] afresh at every turn; nothing
    changes that field while it runs, so it visits the entries tracked at
    the time of the call, in order. *)
Definition Record_discard : M facade value :=
  do subs <- gets subscriptions;
  exec for_each (fun subscription =>
                   exec record_call (CallUnsubscribe subscription);
                   ret tt) subs;
  record_call CallDiscard.

Definition Record_delete (callback : value) : M facade value :=
  record_call (CallDelete callback).

Definition Record_setMergeStrategy (mergeStrategy : value)
  : M facade value :=
  exec record_call (CallSetMergeStrategy mergeStrategy);
  ret VUndef.

End RecordFacade.

(** ** Notions the properties are stated with *)

(** The guard of the pass-through branch of [normalizeArguments]. *)
Definition passes_through (args : list value) : bool :=
  bool_decide (length args = 1)
  && bool_decide (typeof (arg_at args 0) = TObject).

(** One turn of the scanning loop, on the property map of [result]. *)
Definition assign (ps : gmap string value) (a : value) : gmap string value :=
  if bool_decide (typeof a = TString) then <["path" := a]> ps
  else if bool_decide (typeof a = TFunction) then <["callback" := a]> ps
  else if bool_decide (typeof a = TBoolean) then <["triggerNow" := a]> ps
  else ps.

(** The object [o] with [ps] as its properties. *)
Definition with_props (o : object) (ps : gmap string value) : object :=
  {| obj_class := obj_class o; obj_props := ps |}.

(** The last argument of runtime type [t], if there is one. *)
Definition last_of_type (t : jstype) (args : list value) : option value :=
  last (filter (fun a => typeof a = t) args).

(** The first argument of runtime type [t], if there is one. *)
Definition first_of_type (t : jstype) (args : list value) : option value :=
  head (filter (fun a => typeof a = t) args).

(** [undefined] and [null], the two values without properties. *)
Definition is_nullish (v : value) : bool :=
  match v with VUndef | VNull => true | _ => false end.

(** The value a successful read [v[name]] gives. *)
Definition prop_of (h : store) (name : string) (v : value) : value :=
  match v with
  | VObj l => default VUndef (o ← h !! l; obj_props o !! name)
  | _ => VUndef
  end.

(** [e] and [p] have the same (path, callback) pair under [===]. *)
Definition same_pair (h : store) (e p : value) : bool :=
  strict_eq (prop_of h "path" e) (prop_of h "path" p)
  && strict_eq (prop_of h "callback" e) (prop_of h "callback" p).

(** A canonical subscribe request: an object of the store with a function
    as [callback], a string or nothing as [path], a boolean or nothing as
    [triggerNow]. *)
Definition canonical_request (h : store) (v : value) : Prop :=
  (exists l, v = VObj l /\ is_Some (h !! l))
  /\ typeof (prop_of h "callback" v) = TFunction
  /\ (typeof (prop_of h "path" v) = TString
      \/ prop_of h "path" v = VUndef)
  /\ (typeof (prop_of h "triggerNow" v) = TBoolean
      \/ prop_of h "triggerNow" v = VUndef).

(** The arguments resolve to a request that has a (path, callback) pair
    and that pair equals itself under [===] (no [NaN] in it). *)
Definition registers_pair (args : list value) (h : store) : Prop :=
  exists p h', normalizeArguments args h = (Normal p, h')
               /\ is_nullish p = false
               /\ same_pair h' p p = true.

(** An underlying record that answers [undefined] to every call, and a
    facade just built on an empty store. *)
Definition silent_record : list call -> call -> value := fun _ _ => VUndef.

Definition fresh_facade : facade := new_Record ∅ [].

(** A store holding the object [{path: "p", callback: f0}]. *)
Definition example_store : store :=
  {[ 1%positive :=
       {| obj_class := PlainObject;
          obj_props := {[ "path" := VStr "p"; "callback" := VFun 0 ]} |} ]}.

(** A facade that has subscribed three times: to ["p"], to ["q"] and to
    ["p"] again, each time with the callback [f0]. *)
Definition busy_facade : facade :=
  (Record_subscribe silent_record [VStr "p"; VFun 0]
     (Record_subscribe silent_record [VStr "q"; VFun 0]
        (Record_subscribe silent_record [VStr "p"; VFun 0]
           fresh_facade).2).2).2.

(** A store holding the object [{path: NaN, callback: f0}]. *)
Definition nan_store : store :=
  {[ 1%positive :=
       {| obj_class := PlainObject;
          obj_props := {[ "path" := VNum NaN; "callback" := VFun 0 ]} |} ]}.

(** When [unsubscribe] ends in a [TypeError]: some entry is tracked, and
    the normalized request or a tracked entry is [null] (or [undefined],
    which no call of [subscribe] can track). *)
Definition unsubscribe_throws (p : value) (subs : list value) : bool :=
  negb (bool_decide (subs = []))
  && (is_nullish p || existsb is_nullish subs).

(** ** Notions for the further properties *)

(** A string other than [""]. *)
Definition nonempty_string (v : value) : bool :=
  match v with
  | VStr s => negb (Nat.eqb (String.length s) 0)
  | _ => false
  end.

(** What every request returned by the set normalizer satisfies. *)
Definition valid_set_request (r : RecordSetArguments) : Prop :=
  (set_path r = VUndef \/ nonempty_string (set_path r) = true)
  /\ (set_callback r = VUndef \/ typeof (set_callback r) = TFunction)
  /\ typeof (set_data r) <> TFunction
  /\ set_data r <> VBool false
  /\ (set_data r = VUndef -> nonempty_string (set_path r) = true)
  /\ (set_path r = VUndef -> typeof (set_data r) = TObject).

(** The arguments the scanning loop of [normalizeArguments] reads:
    strings, functions and booleans. *)
Definition scanned (a : value) : bool :=
  bool_decide (typeof a = TString)
  || bool_decide (typeof a = TFunction)
  || bool_decide (typeof a = TBoolean).

(** [v] is an object present in the store [h]. *)
Definition allocated (h : store) (v : value) : bool :=
  match v with
  | VObj l => bool_decide (is_Some (h !! l))
  | _ => false
  end.

(** Every tracked entry is an object of the store. *)
Definition tracks_objects (st : facade) : Prop :=
  Forall (fun e => allocated (heap st) e = true) (subscriptions st).

(** A lone object handed to [subscribe] or [unsubscribe] is an object of
    the store (and so not [null]). *)
Definition request_allocated (h : store) (args : list value) : Prop :=
  passes_through args = true -> allocated h (arg_at args 0) = true.

(** The path and the callback that positional arguments resolve to. *)
Definition pair_of_args (args : list value) : value * value :=
  (default VUndef (last_of_type TString args),
   default VUndef (last_of_type TFunction args)).

(** The entry [e] has the path and the callback [pc] under [===]. *)
Definition has_pair (h : store) (pc : value * value) (e : value) : bool :=
  strict_eq (prop_of h "path" e) pc.1
  && strict_eq (prop_of h "callback" e) pc.2.

(** ** [trim] (utils.ts) *)

(** In this part a string is the sequence of its 16-bit code units.
    [is_white_space] is the class [\s] of regular expressions, which is
    also what [String.prototype.trim] strips: the white space and line
    terminator code points of ECMAScript. *)
Definition is_white_space (c : N) : bool :=
  ((9 <=? c) && (c <=? 13) || (c =? 32) || (c =? 0xA0) || (c =? 0x1680)
   || (0x2000 <=? c) && (c <=? 0x200A) || (c =? 0x2028) || (c =? 0x2029)
   || (c =? 0x202F) || (c =? 0x205F) || (c =? 0x3000) || (c =? 0xFEFF))%N.

(** The class [[\s\uFEFF\xA0]] of [TRIM_REGULAR_EXPRESSION]. *)
Definition trim_class (c : N) : bool :=
  (is_white_space c || (c =? 0xFEFF) || (c =? 0xA0))%N.

(** The string without its longest prefix in the class. *)
Fixpoint drop_leading (class : N -> bool) (s : list N) : list N :=
  match s with
  | [] => []
  | c :: s' => if class c then drop_leading class s' else s
  end.

(** [s.trim()]: white space removed from both ends. *)
Definition String_trim (s : list N) : list N :=
  reverse (drop_leading is_white_space
             (reverse (drop_leading is_white_space s))).

(** The second alternative of the expression, [[\s\uFEFF\xA0]+$], matches
    at the first position from which everything up to the end is in the
    class; the match is replaced by the empty string. *)
Fixpoint drop_trailing_match (s : list N) : list N :=
  match s with
  | [] => []
  | c :: s' =>
      if forallb trim_class (c :: s') then [] else c :: drop_trailing_match s'
  end.

(** [s.replace(TRIM_REGULAR_EXPRESSION, '')]: the first alternative,
    [^[\s\uFEFF\xA0]+], matches the leading run at position 0, the second
    one the trailing run; the flag [g] replaces both. *)
Definition replace_trim_expression (s : list N) : list N :=
  drop_trailing_match (drop_leading trim_class s).

(** [has_trim] is the test [if (inputString.trim)]: whether the engine
    has [String.prototype.trim]. *)
Definition trim (has_trim : bool) (inputString : list N) : list N :=
  if has_trim then String_trim inputString
  else replace_trim_expression inputString.

(** ** [parseUrl] (utils.ts) *)

(** What [URL.parse] of Node's [url] module returns, as far as [parseUrl]
    reads or writes it; a field is a string or [null].  The other fields
    are carried along in [url_other]. *)
Record Url (other : Type) := {
  url_protocol : option string;
  url_host : option string;
  url_pathname : option string;
  url_other : other
}.
Arguments url_protocol {other} _.
Arguments url_host {other} _.
Arguments url_pathname {other} _.
Arguments url_other {other} _.

(** Truthiness of a field: neither [null] nor [""]. *)
Definition truthy_field (f : option string) : bool :=
  match f with
  | Some s => negb (Nat.eqb (String.length s) 0)
  | None => false
  end.

(** [unsupportedProtocol.test(url)], with [/^http:|^https:/]. *)
Definition unsupportedProtocol (url : string) : bool :=
  String.prefix "http:" url || String.prefix "https:" url.

(** [hasUrlProtocol.test(url)], with [/^wss:|^ws:|^\/\//]. *)
Definition hasUrlProtocol (url : string) : bool :=
  String.prefix "wss:" url || String.prefix "ws:" url
  || String.prefix "//" url.

(** The two assignments to [url] before it is parsed;
    [url.indexOf('//') === 0] says that [url] starts with ["//"]. *)
Definition with_protocol (url : string) : string :=
  if negb (hasUrlProtocol url) then "ws://" +:+ url
  else if String.prefix "//" url then "ws:" +:+ url
  else url.

Section ParseUrl.

Variable other : Type.

(** [URL.parse] and [URL.format] belong to Node, not to this code. *)
Variable URL_parse : string -> completion (Url other).
Variable URL_format : Url other -> string.

Definition parseUrl (initialURl defaultPath : string) : completion string :=
  let url := initialURl in
  if unsupportedProtocol url
  then Throw (Error "Only ws and wss are supported")
  else
    let url := with_protocol url in
    match URL_parse url with
    | Throw e => Throw e
    | Normal serverUrl =>
        if negb (truthy_field (url_host serverUrl))
        then Throw (Error "invalid url, missing host")
        else
          Normal (URL_format
                    {| url_protocol :=
                         if truthy_field (url_protocol serverUrl)
                         then url_protocol serverUrl else Some "ws:";
                       url_host := url_host serverUrl;
                       url_pathname :=
                         if truthy_field (url_pathname serverUrl)
                         then url_pathname serverUrl
                         else Some defaultPath;
                       url_other := url_other serverUrl |})
    end.

End ParseUrl.

(** A stand-in for [URL.parse] and [URL.format], enough to run
    [parseUrl]: the host is everything after ["ws://"], there is no
    path. *)
Definition toy_parse (url : string) : completion (Url unit) :=
  Normal {| url_protocol := Some "ws:";
            url_host := Some (String.substring 5 (String.length url) url);
            url_pathname := None;
            url_other := tt |}.

Definition toy_format (u : Url unit) : string :=
  default "" (url_protocol u) +:+ "//" +:+ default "" (url_host u)
  +:+ default "" (url_pathname u).

(** ** [deepEquals] (utils.ts) *)

Section DeepEquals.

(** [JSON.stringify] belongs to the engine: on the store it reads, it
    gives a string or [undefined], or throws (a cyclic object). *)
Variable JSON_stringify : store -> value -> completion (option string).

Definition deepEquals (objA objB : value) (h : store) : completion bool :=
  if strict_eq objA objB then Normal true
  else if negb (bool_decide (typeof objA = TObject))
          || negb (bool_decide (typeof objB = TObject))
  then Normal false
  else
    match JSON_stringify h objA with
    | Throw e => Throw e
    | Normal a =>
        match JSON_stringify h objB with
        | Throw e => Throw e
        | Normal b => Normal (bool_decide (a = b))
        end
    end.

End DeepEquals.

(** A stand-in for [JSON.stringify] that tells [null] from objects and
    nothing else. *)
Definition toy_stringify (h : store) (v : value)
  : completion (option string) :=
  match v with
  | VNull => Normal (Some "null")
  | VObj _ => Normal (Some "{}")
  | _ => Normal None
  end.

(** ** [shallowCopy] (utils.ts) *)

(** [Array.isArray(v)]. *)
Definition isArray (h : store) (v : value) : bool :=
  match v with
  | VObj l =>
      match h !! l with
      | Some o => match obj_class o with ArrayObject => true | _ => false end
      | None => false
      end
  | _ => false
  end.

(** [Object.keys(v)]: a [TypeError] on [undefined] and [null], the names
    of the own properties of an object (objects are plain data, every
    property is enumerable).  The order of the names is not modelled. *)
Definition Object_keys (v : value) : M store (list string) :=
  fun h =>
    match v with
    | VUndef | VNull => (Throw TypeError, h)
    | VObj l =>
        (Normal (match h !! l with
                 | Some o => (map_to_list (obj_props o)).*1
                 | None => []
                 end), h)
    | _ => (Normal [], h)
    end.

Section ShallowCopy.

(** [obj.slice(0)] on an array belongs to the engine. *)
Variable Array_slice0 : loc -> M store value.

Definition shallowCopy (obj : value) : M store value :=
  do isArr <- gets (fun h => isArray h obj);
  if isArr
  then match obj with
       | VObj l => Array_slice0 l
       | _ => ret obj
       end
  else if bool_decide (typeof obj = TObject)
  then
    do copy <- object_create_null;
    do props <- Object_keys obj;
    exec for_each (fun name =>
                     do v <- get_prop name obj;
                     set_prop copy name v) props;
    ret (VObj copy)
  else ret obj.

End ShallowCopy.

(** A stand-in for [slice] that returns the array itself. *)
Definition toy_slice (l : loc) : M store value := ret (VObj l).

(** One turn of the copying loop of [shallowCopy], on the property map
    of [copy]: the property [name] of the object with properties [m]. *)
Definition copy_step (m ps : gmap string value) (name : string)
  : gmap string value :=
  <[name := default VUndef (m !! name)]> ps.

(** ** The documented table of the set normalizer *)


(** * Properties *)

(** ** The set normalizer *)

(** An empty string in the path position has a length of zero, so the
    first validation rejects it as soon as it reaches the [path] slot. *)
Lemma validate_set_empty_path d c :
  validate_set {| set_path := VStr ""; set_data := d; set_callback := c |}
  = Throw (Error "Invalid set path argument").
Proof. reflexivity. Qed.

(** With neither path nor data there is nothing to write. *)
Lemma validate_set_nothing c :
  validate_set {| set_path := VUndef; set_data := VUndef;
                  set_callback := c |}
  = Throw (Error "Invalid set data argument").
Proof. reflexivity. Qed.

Lemma normalizeSetArguments_arity1 args startIndex :
  length args = startIndex + 1 ->
  normalizeSetArguments args startIndex
  = validate_set (set_arity1 args startIndex).
Proof.
  intros Hlen. unfold normalizeSetArguments.
  rewrite (bool_decide_eq_true_2 _ Hlen).
  rewrite !bool_decide_eq_false_2 by lia. reflexivity.
Qed.

Lemma normalizeSetArguments_arity2 args startIndex :
  length args = startIndex + 2 ->
  normalizeSetArguments args startIndex
  = validate_set (set_arity2 args startIndex).
Proof.
  intros Hlen. unfold normalizeSetArguments.
  rewrite (bool_decide_eq_true_2 (length args = startIndex + 2) Hlen).
  rewrite !bool_decide_eq_false_2 by lia. reflexivity.
Qed.

Lemma normalizeSetArguments_arity3 args startIndex :
  length args = startIndex + 3 ->
  normalizeSetArguments args startIndex
  = validate_set (set_arity3 args startIndex).
Proof.
  intros Hlen. unfold normalizeSetArguments.
  rewrite (bool_decide_eq_true_2 (length args = startIndex + 3) Hlen).
  reflexivity.
Qed.

Lemma normalizeSetArguments_bad_arity args startIndex :
  length args <> startIndex + 1 ->
  length args <> startIndex + 2 ->
  length args <> startIndex + 3 ->
  normalizeSetArguments args startIndex
  = Throw (Error "Invalid set arguments").
Proof.
  intros H1 H2 H3. unfold normalizeSetArguments.
  rewrite !bool_decide_eq_false_2 by assumption. reflexivity.
Qed.

(** The three inputs the specification gives as examples:
    [("a/b", {x:1})] gives path ["a/b"], data the object, no callback;
    [({x:1}, fn)] gives no path, data the object, callback [fn];
    [("p", {x:1}, fn)] gives path ["p"], data the object, callback [fn].
    The object [{x:1}] is any object [o] of the store and [fn] any
    function. *)
Example set_normalizer_documented_examples (o : loc) (fn : nat) :
  normalizeSetArguments [VStr "a/b"; VObj o] 0
  = Normal {| set_path := VStr "a/b"; set_data := VObj o;
              set_callback := VUndef |}
  /\ normalizeSetArguments [VObj o; VFun fn] 0
     = Normal {| set_path := VUndef; set_data := VObj o;
                 set_callback := VFun fn |}
  /\ normalizeSetArguments [VStr "p"; VObj o; VFun fn] 0
     = Normal {| set_path := VStr "p"; set_data := VObj o;
                 set_callback := VFun fn |}.
Proof. repeat split; reflexivity. Qed.

(** Which error an empty string in the path position raises. *)
Lemma empty_path_arity1 args startIndex :
  length args = startIndex + 1 ->
  arg_at args startIndex = VStr "" ->
  normalizeSetArguments args startIndex
  = Throw (Error "Invalid set data argument").
Proof.
  intros Hlen Hp. rewrite normalizeSetArguments_arity1 by assumption.
  unfold set_arity1. rewrite Hp. reflexivity.
Qed.

Lemma empty_path_arity2 args startIndex :
  length args = startIndex + 2 ->
  arg_at args startIndex = VStr "" ->
  normalizeSetArguments args startIndex
  = Throw (Error (if isCallback (arg_at args (startIndex + 1))
                  then "Invalid set data argument"
                  else "Invalid set path argument")).
Proof.
  intros Hlen Hp. rewrite normalizeSetArguments_arity2 by assumption.
  unfold set_arity2. rewrite Hp.
  unfold isNestedData, isCallback.
  destruct (bool_decide (typeof (arg_at args (startIndex + 1)) = TFunction));
    reflexivity.
Qed.

Lemma empty_path_arity3 args startIndex :
  length args = startIndex + 3 ->
  arg_at args startIndex = VStr "" ->
  normalizeSetArguments args startIndex
  = Throw (Error "Invalid set path argument").
Proof.
  intros Hlen Hp. rewrite normalizeSetArguments_arity3 by assumption.
  unfold set_arity3. rewrite Hp. reflexivity.
Qed.

(** C7. With one, two or three arguments beyond [startIndex], an empty
    string in the position of the path (the argument at [startIndex])
    makes the set normalizer throw: it never returns a request.  The error
    names the path, or the data when the empty string never reaches the
    path slot (one argument, or a function as second argument). *)
Theorem set_normalizer_rejects_empty_path args startIndex :
  startIndex + 1 <= length args <= startIndex + 3 ->
  arg_at args startIndex = VStr "" ->
  normalizeSetArguments args startIndex
  = Throw (Error "Invalid set path argument")
  \/ normalizeSetArguments args startIndex
     = Throw (Error "Invalid set data argument").
Proof.
  intros Hlen Hp.
  assert (length args = startIndex + 1 \/ length args = startIndex + 2
          \/ length args = startIndex + 3) as [H | [H | H]] by lia.
  - right. by apply empty_path_arity1.
  - rewrite (empty_path_arity2 _ _ H Hp).
    destruct (isCallback _); [by right | by left].
  - left. by apply empty_path_arity3.
Qed.

Lemma set_normalizer_rejects_empty_path_witness :
  normalizeSetArguments [VNum (Num 7); VStr ""; VObj 1%positive] 1
  = Throw (Error "Invalid set path argument")
  \/ normalizeSetArguments [VNum (Num 7); VStr ""; VObj 1%positive] 1
     = Throw (Error "Invalid set data argument").
Proof.
  apply set_normalizer_rejects_empty_path; [simpl; lia | reflexivity].
Defined.

(** ** The subscribe normalizer *)

(** One turn of the loop rewrites the object at [l] by [assign]. *)
Lemma scan_body_insert l o a (h : store) :
  scan_body l a (<[l := o]> h)
  = (Normal tt, <[l := with_props o (assign (obj_props o) a)]> h).
Proof.
  unfold scan_body, assign, set_prop, modify, ret, with_props.
  repeat case_bool_decide; rewrite ?alter_insert_eq; try reflexivity.
  destruct o; reflexivity.
Qed.

(** The whole loop folds [assign] over the arguments, left to right. *)
Lemma scan_loop_insert args : forall l o (h : store),
  for_each (scan_body l) args (<[l := o]> h)
  = (Normal tt, <[l := with_props o (foldl assign (obj_props o) args)]> h).
Proof.
  induction args as [| a args IH]; intros l o h; simpl.
  - unfold ret, with_props. destruct o; reflexivity.
  - unfold bind. rewrite scan_body_insert, IH. reflexivity.
Qed.

(** The pass-through branch. *)
Lemma normalizeArguments_pass args (h : store) :
  passes_through args = true ->
  normalizeArguments args h = (Normal (arg_at args 0), h).
Proof.
  unfold passes_through, normalizeArguments. intros ->. reflexivity.
Qed.

Lemma normalizeArguments_single_object v (h : store) :
  typeof v = TObject -> normalizeArguments [v] h = (Normal v, h).
Proof.
  intros Hv. rewrite normalizeArguments_pass; [reflexivity |].
  unfold passes_through. simpl.
  rewrite (bool_decide_eq_true_2 _ Hv). reflexivity.
Qed.

(** The scanning branch: a new object at an unused address, whose
    properties are the fold of [assign]. *)
Lemma normalizeArguments_scan args (h : store) :
  passes_through args = false ->
  normalizeArguments args h
  = (Normal (VObj (fresh (dom h))),
     <[fresh (dom h) := {| obj_class := NullProto;
                           obj_props := foldl assign ∅ args |}]> h).
Proof.
  unfold passes_through, normalizeArguments. intros ->.
  unfold bind at 1. unfold object_create_null.
  unfold bind at 1.
  rewrite scan_loop_insert. reflexivity.
Qed.

Lemma passes_through_inv args :
  passes_through args = true ->
  exists v, args = [v] /\ typeof v = TObject.
Proof.
  unfold passes_through. intros [Hl Ht]%andb_true_iff.
  apply bool_decide_eq_true in Hl, Ht.
  destruct args as [| v [| ? ?]]; simplify_eq/=. eauto.
Qed.

(** The normalizer never throws, and what it returns has [typeof]
    ['object']. *)
Lemma normalizeArguments_returns args (h : store) :
  exists p h', normalizeArguments args h = (Normal p, h')
               /\ typeof p = TObject.
Proof.
  destruct (passes_through args) eqn:Hpt.
  - destruct (passes_through_inv _ Hpt) as (v & -> & Hv).
    exists v, h. by rewrite normalizeArguments_single_object.
  - eexists _, _. by rewrite normalizeArguments_scan.
Qed.

(** What the fold leaves in each slot: the value of the last assignment
    to it, or what was there before. *)
Lemma assign_fold_path args : forall ps,
  foldl assign ps args !! "path"
  = match last_of_type TString args with
    | Some v => Some v
    | None => ps !! "path"
    end.
Proof.
  unfold last_of_type.
  induction args as [| a args IH] using rev_ind; intros ps; [done |].
  rewrite foldl_snoc, filter_app, filter_cons, filter_nil.
  unfold assign at 1. case_decide as Ha.
  - rewrite (bool_decide_eq_true_2 _ Ha), last_snoc.
    by rewrite lookup_insert_eq.
  - rewrite (bool_decide_eq_false_2 _ Ha), app_nil_r.
    repeat case_bool_decide; rewrite ?lookup_insert_ne by done; apply IH.
Qed.

Lemma assign_fold_callback args : forall ps,
  foldl assign ps args !! "callback"
  = match last_of_type TFunction args with
    | Some v => Some v
    | None => ps !! "callback"
    end.
Proof.
  unfold last_of_type.
  induction args as [| a args IH] using rev_ind; intros ps; [done |].
  rewrite foldl_snoc, filter_app, filter_cons, filter_nil.
  unfold assign at 1. case_decide as Ha.
  - rewrite last_snoc. case_bool_decide; [congruence |].
    rewrite (bool_decide_eq_true_2 _ Ha). by rewrite lookup_insert_eq.
  - rewrite app_nil_r. rewrite (bool_decide_eq_false_2 _ Ha).
    repeat case_bool_decide; rewrite ?lookup_insert_ne by done; apply IH.
Qed.

Lemma assign_fold_triggerNow args : forall ps,
  foldl assign ps args !! "triggerNow"
  = match last_of_type TBoolean args with
    | Some v => Some v
    | None => ps !! "triggerNow"
    end.
Proof.
  unfold last_of_type.
  induction args as [| a args IH] using rev_ind; intros ps; [done |].
  rewrite foldl_snoc, filter_app, filter_cons, filter_nil.
  unfold assign at 1. case_decide as Ha.
  - rewrite last_snoc. do 2 (case_bool_decide; [congruence |]).
    rewrite (bool_decide_eq_true_2 _ Ha). by rewrite lookup_insert_eq.
  - rewrite app_nil_r. rewrite (bool_decide_eq_false_2 _ Ha).
    repeat case_bool_decide; rewrite ?lookup_insert_ne by done; apply IH.
Qed.

Lemma last_of_type_typeof t args v :
  last_of_type t args = Some v -> typeof v = t.
Proof.
  unfold last_of_type. intros H%last_Some_elem_of.
  by apply list_elem_of_filter in H as [? _].
Qed.

(** ** The facade *)

Lemma get_prop_object name v (h : store) :
  is_nullish v = false ->
  get_prop name v h = (Normal (prop_of h name v), h).
Proof. by destruct v. Qed.

Lemma get_prop_nullish name v (h : store) :
  is_nullish v = true -> get_prop name v h = (Throw TypeError, h).
Proof. by destruct v. Qed.

Section RecordProperties.

Variable reply : list call -> call -> value.

(** [subscribe] returns normally whatever the normalizer gave: it
    appends the request to the tracked list and forwards it. *)
Lemma subscribe_run args st p h' :
  normalizeArguments args (heap st) = (Normal p, h') ->
  Record_subscribe reply args st
  = (Normal VUndef,
     {| heap := h';
        subscriptions := subscriptions st ++ [p];
        calls := calls st ++ [CallSubscribe p] |}).
Proof.
  intros Hn. unfold Record_subscribe, bind, with_heap. rewrite Hn.
  reflexivity.
Qed.

(** The loop of [discard]: one unsubscribe per entry, in order. *)
Lemma discard_loop subs : forall st,
  for_each (fun subscription =>
              exec record_call reply (CallUnsubscribe subscription);
              ret tt) subs st
  = (Normal tt,
     {| heap := heap st;
        subscriptions := subscriptions st;
        calls := calls st ++ map CallUnsubscribe subs |}).
Proof.
  induction subs as [| e subs IH]; intros st; simpl.
  - unfold ret. rewrite app_nil_r. by destruct st.
  - unfold bind at 1. unfold bind at 1. simpl. unfold ret at 1.
    rewrite IH. simpl. by rewrite <- app_assoc.
Qed.

Lemma discard_run st :
  Record_discard reply st
  = (Normal (reply (calls st ++ map CallUnsubscribe (subscriptions st))
               CallDiscard),
     {| heap := heap st;
        subscriptions := subscriptions st;
        calls := calls st ++ map CallUnsubscribe (subscriptions st)
                   ++ [CallDiscard] |}).
Proof.
  unfold Record_discard, bind, gets. rewrite discard_loop.
  unfold record_call. simpl. by rewrite <- app_assoc.
Qed.

(** The callback of [filter], on two values that are not [null]. *)
Lemma differs_run (h : store) p e :
  is_nullish p = false -> is_nullish e = false ->
  differs p e h = (Normal (negb (same_pair h e p)), h).
Proof.
  intros Hp He. unfold differs, bind, same_pair.
  rewrite !(get_prop_object "path") by assumption.
  unfold strict_neq.
  destruct (strict_eq (prop_of h "path" e) (prop_of h "path" p)); simpl.
  - by rewrite !(get_prop_object "callback") by assumption.
  - reflexivity.
Qed.

Lemma differs_throw (h : store) p e :
  is_nullish p = true \/ is_nullish e = true ->
  differs p e h = (Throw TypeError, h).
Proof.
  intros Hn. unfold differs, bind.
  destruct (is_nullish e) eqn:He.
  - by rewrite get_prop_nullish.
  - destruct Hn as [Hp | ?]; [| done].
    rewrite (get_prop_object _ e) by done. by rewrite get_prop_nullish.
Qed.

(** Without [null] the monadic filter is the plain one. *)
Lemma filterM_differs_run (h : store) p subs :
  is_nullish p = false ->
  Forall (fun e => is_nullish e = false) subs ->
  filterM (differs p) subs h
  = (Normal (filter (fun e => same_pair h e p = false) subs), h).
Proof.
  intros Hp. induction 1 as [| e subs He _ IH]; [done |].
  simpl. unfold bind at 1. rewrite differs_run by done.
  unfold bind at 1. rewrite IH. unfold ret.
  rewrite filter_cons. by destruct (same_pair h e p).
Qed.

(** With a [null] anywhere and at least one entry it throws. *)
Lemma filterM_differs_throw (h : store) p subs :
  subs <> [] ->
  is_nullish p = true \/ Exists (fun e => is_nullish e = true) subs ->
  filterM (differs p) subs h = (Throw TypeError, h).
Proof.
  induction subs as [| e subs IH]; [done |]. intros _ Hn.
  simpl. unfold bind at 1.
  destruct (is_nullish p) eqn:Hp.
  { rewrite differs_throw by auto. reflexivity. }
  destruct (is_nullish e) eqn:He.
  { rewrite differs_throw by auto. reflexivity. }
  rewrite differs_run by done. unfold bind at 1.
  destruct Hn as [? | Hn]; [done |].
  apply Exists_cons in Hn as [? | Hn]; [congruence |].
  rewrite IH; [reflexivity | | by right].
  intros ->. by apply Exists_nil in Hn.
Qed.

Lemma unsubscribe_run args st p h' :
  normalizeArguments args (heap st) = (Normal p, h') ->
  is_nullish p = false ->
  Forall (fun e => is_nullish e = false) (subscriptions st) ->
  Record_unsubscribe reply args st
  = (Normal VUndef,
     {| heap := h';
        subscriptions := filter (fun e => same_pair h' e p = false)
                           (subscriptions st);
        calls := calls st ++ [CallUnsubscribe p] |}).
Proof.
  intros Hn Hp Hs. unfold Record_unsubscribe.
  unfold bind at 1. unfold with_heap at 1. rewrite Hn.
  unfold bind at 1. unfold gets. simpl.
  unfold bind at 1. unfold with_heap. simpl.
  rewrite filterM_differs_run by done. reflexivity.
Qed.

Lemma unsubscribe_throw args st p h' :
  normalizeArguments args (heap st) = (Normal p, h') ->
  subscriptions st <> [] ->
  is_nullish p = true
  \/ Exists (fun e => is_nullish e = true) (subscriptions st) ->
  Record_unsubscribe reply args st
  = (Throw TypeError,
     {| heap := h'; subscriptions := subscriptions st;
        calls := calls st |}).
Proof.
  intros Hn Hne Hnull. unfold Record_unsubscribe.
  unfold bind at 1. unfold with_heap at 1. rewrite Hn.
  unfold bind at 1. unfold gets. simpl.
  unfold bind at 1. unfold with_heap. simpl.
  rewrite filterM_differs_throw by done. reflexivity.
Qed.

End RecordProperties.

(** *** discard *)

(** C1 as stated fails: a facade that has subscribed once still tracks
    that entry after [discard()]; the list is not emptied. *)
Lemma discard_leaves_entry_tracked :
  subscriptions (Record_subscribe silent_record [VStr "p"; VFun 0]
                   fresh_facade).2 = [VObj 1%positive]
  /\ subscriptions
       (Record_discard silent_record
          (Record_subscribe silent_record [VStr "p"; VFun 0]
             fresh_facade).2).2 = [VObj 1%positive]
  /\ subscriptions
       (Record_discard silent_record
          (Record_subscribe silent_record [VStr "p"; VFun 0]
             fresh_facade).2).2 <> [].
Proof. vm_compute. repeat split; discriminate. Qed.

(** C1, amended.  [discard()] issues one unsubscribe to the underlying
    record for every entry tracked at the time of the call, in tracked
    order, then a discard whose answer it returns; the tracked list is
    left as it was. *)
Theorem discard_unsubscribes_every_entry
    (reply : list call -> call -> value) (st : facade) :
  Record_discard reply st
  = (Normal (reply (calls st ++ map CallUnsubscribe (subscriptions st))
               CallDiscard),
     {| heap := heap st;
        subscriptions := subscriptions st;
        calls := calls st ++ map CallUnsubscribe (subscriptions st)
                   ++ [CallDiscard] |}).
Proof. apply discard_run. Qed.

(** *** subscribe *)

(** C4 as stated fails: [subscribe("p")] has no callback at all, yet it
    returns normally, tracks the request and forwards it. *)
Lemma subscribe_without_callback_is_tracked :
  (Record_subscribe silent_record [VStr "p"] fresh_facade).1
  = Normal VUndef
  /\ subscriptions (Record_subscribe silent_record [VStr "p"]
                      fresh_facade).2 = [VObj 1%positive]
  /\ calls (Record_subscribe silent_record [VStr "p"] fresh_facade).2
     = calls fresh_facade ++ [CallSubscribe (VObj 1%positive)]
  /\ prop_of (heap (Record_subscribe silent_record [VStr "p"]
                      fresh_facade).2) "callback" (VObj 1%positive)
     = VUndef.
Proof. vm_compute. repeat split. Qed.

(** C4, amended.  For every argument list whose resolved callback is not
    a function, [subscribe] returns normally: it adds the normalized
    request to the tracked list as its last entry and forwards it to the
    underlying record. *)
Theorem subscribe_tracks_without_callback
    (reply : list call -> call -> value) args (st : facade) p h' :
  normalizeArguments args (heap st) = (Normal p, h') ->
  typeof (prop_of h' "callback" p) <> TFunction ->
  Record_subscribe reply args st
  = (Normal VUndef,
     {| heap := h';
        subscriptions := subscriptions st ++ [p];
        calls := calls st ++ [CallSubscribe p] |}).
Proof. intros Hn _. by apply subscribe_run. Qed.

Lemma subscribe_tracks_without_callback_witness :
  Record_subscribe silent_record [VStr "p"; VBool true] fresh_facade
  = (Normal VUndef,
     {| heap := (normalizeArguments [VStr "p"; VBool true] ∅).2;
        subscriptions := [VObj 1%positive];
        calls := calls fresh_facade ++ [CallSubscribe (VObj 1%positive)] |}).
Proof.
  apply (subscribe_tracks_without_callback silent_record
           [VStr "p"; VBool true] fresh_facade (VObj 1%positive)).
  - vm_compute. reflexivity.
  - vm_compute. discriminate.
Defined.

(** *** get, set, setWithAck, setMergeStrategy, delete *)

(** C9.  [get], [set], [setWithAck], [setMergeStrategy] and [delete]
    leave the tracked list as it is, entries and order (and the store with
    it), whether they return or throw. *)
Theorem accessors_keep_tracked_list
    (reply : list call -> call -> value) (st : facade)
    path arguments mergeStrategy callback :
  let same st' :=
    subscriptions st' = subscriptions st /\ heap st' = heap st in
  same (Record_get reply path st).2
  /\ same (Record_set reply arguments st).2
  /\ same (Record_setWithAck reply arguments st).2
  /\ same (Record_setMergeStrategy reply mergeStrategy st).2
  /\ same (Record_delete reply callback st).2.
Proof.
  unfold Record_get, Record_set, Record_setWithAck,
    Record_setMergeStrategy, Record_delete, bind, lift_completion.
  simpl. destruct (normalizeSetArguments arguments 0); simpl; auto 10.
Qed.

(** *** The subscribe normalizer: slots, pass-through *)

(** C5 as stated fails: of two strings the later one ends up as the
    path, the first one is overwritten. *)
Lemma later_string_overwrites_path :
  (normalizeArguments [VStr "a"; VStr "b"; VFun 0] ∅).1
  = Normal (VObj 1%positive)
  /\ first_of_type TString [VStr "a"; VStr "b"; VFun 0] = Some (VStr "a")
  /\ prop_of (normalizeArguments [VStr "a"; VStr "b"; VFun 0] ∅).2
       "path" (VObj 1%positive) = VStr "b"
  /\ prop_of (normalizeArguments [VStr "a"; VStr "b"; VFun 0] ∅).2
       "path" (VObj 1%positive) <> VStr "a".
Proof. vm_compute. repeat split; discriminate. Qed.

(** C5, amended.  For every input of two or more arguments the
    normalizer returns a new object in which the last string in scan order
    is the path, the last function the callback and the last boolean
    triggerNow; earlier arguments of the same type are overwritten, and a
    slot without an argument of its type stays absent. *)
Theorem scan_last_argument_wins args (h : store) :
  2 <= length args ->
  exists l ps,
    normalizeArguments args h
    = (Normal (VObj l),
       <[l := {| obj_class := NullProto; obj_props := ps |}]> h)
    /\ h !! l = None
    /\ ps !! "path" = last_of_type TString args
    /\ ps !! "callback" = last_of_type TFunction args
    /\ ps !! "triggerNow" = last_of_type TBoolean args.
Proof.
  intros Hlen.
  assert (passes_through args = false) as Hpt.
  { unfold passes_through. rewrite bool_decide_eq_false_2 by lia. done. }
  exists (fresh (dom h)), (foldl assign ∅ args).
  split; [by apply normalizeArguments_scan |].
  split; [apply not_elem_of_dom, is_fresh |].
  rewrite assign_fold_path, assign_fold_callback, assign_fold_triggerNow.
  rewrite !lookup_empty.
  by destruct (last_of_type TString args), (last_of_type TFunction args),
    (last_of_type TBoolean args).
Qed.

Lemma scan_last_argument_wins_witness :
  exists l ps,
    normalizeArguments [VStr "a"; VFun 0; VStr "b"; VFun 1] ∅
    = (Normal (VObj l),
       <[l := {| obj_class := NullProto; obj_props := ps |}]> ∅)
    /\ (∅ : store) !! l = None
    /\ ps !! "path" = last_of_type TString [VStr "a"; VFun 0; VStr "b"; VFun 1]
    /\ ps !! "callback"
       = last_of_type TFunction [VStr "a"; VFun 0; VStr "b"; VFun 1]
    /\ ps !! "triggerNow"
       = last_of_type TBoolean [VStr "a"; VFun 0; VStr "b"; VFun 1].
Proof.
  apply (scan_last_argument_wins [VStr "a"; VFun 0; VStr "b"; VFun 1] ∅).
  simpl. lia.
Defined.

(** C8.  A single argument that is a canonical subscribe request is
    returned as the very same object, and the store is not touched; so
    normalizing the result again gives that object again.  The same holds
    for the output of the normalizer on any arguments. *)
Theorem canonical_request_passes_through (h : store) v :
  canonical_request h v ->
  normalizeArguments [v] h = (Normal v, h)
  /\ (do p <- normalizeArguments [v]; normalizeArguments [p]) h
     = (Normal v, h)
  /\ forall args (h0 : store), exists p h1,
       normalizeArguments args h0 = (Normal p, h1)
       /\ normalizeArguments [p] h1 = (Normal p, h1).
Proof.
  intros ((l & -> & _) & _).
  assert (forall h' : store,
            normalizeArguments [VObj l] h' = (Normal (VObj l), h')) as Hl.
  { intros h'. by apply normalizeArguments_single_object. }
  split; [apply Hl |]. split.
  - unfold bind. by rewrite !Hl.
  - intros args h0.
    destruct (normalizeArguments_returns args h0) as (p & h1 & Hn & Hp).
    exists p, h1. split; [done |].
    by apply normalizeArguments_single_object.
Qed.

Lemma canonical_request_passes_through_witness :
  normalizeArguments [VObj 1%positive] example_store
  = (Normal (VObj 1%positive), example_store)
  /\ (do p <- normalizeArguments [VObj 1%positive];
      normalizeArguments [p]) example_store
     = (Normal (VObj 1%positive), example_store)
  /\ forall args (h0 : store), exists p h1,
       normalizeArguments args h0 = (Normal p, h1)
       /\ normalizeArguments [p] h1 = (Normal p, h1).
Proof.
  apply (canonical_request_passes_through example_store (VObj 1%positive)).
  split; [exists 1%positive; split; [reflexivity | by eexists] |].
  vm_compute. auto.
Defined.

(** *** unsubscribe *)

Lemma existsb_nullish_false subs :
  existsb is_nullish subs = false ->
  Forall (fun e => is_nullish e = false) subs.
Proof.
  induction subs as [| e subs IH]; simpl; [constructor |].
  intros [He Hs]%orb_false_iff. constructor; auto.
Qed.

Lemma existsb_nullish_true subs :
  existsb is_nullish subs = true ->
  Exists (fun e => is_nullish e = true) subs.
Proof.
  induction subs as [| e subs IH]; simpl; [discriminate |].
  intros [He | Hs]%orb_true_iff; [by left | right; auto].
Qed.

Lemma filter_keeps_all {A} (P : A -> Prop) `{!forall x, Decision (P x)}
    (l : list A) :
  (forall x, x ∈ l -> P x) -> filter P l = l.
Proof.
  induction l as [| x l IH]; intros Hall; [done |].
  rewrite filter_cons_True by (apply Hall; left).
  f_equal. apply IH. intros y Hy. apply Hall. by right.
Qed.

Lemma filter_drops_single {A} (P : A -> Prop) `{!forall x, Decision (P x)}
    (x : A) :
  ~ P x -> filter P [x] = [].
Proof. intros HP. cbn. by rewrite decide_False. Qed.

(** What [normalizeArguments] returns is [null] only when it was handed
    [null] alone. *)
Lemma normalizeArguments_null args (h h' : store) :
  normalizeArguments args h = (Normal VNull, h') -> args = [VNull].
Proof.
  destruct (passes_through args) eqn:Hpt.
  - destruct (passes_through_inv _ Hpt) as (v & -> & Hv).
    rewrite normalizeArguments_single_object by done. congruence.
  - rewrite normalizeArguments_scan by done. discriminate.
Qed.

Lemma normalizeArguments_not_nullish args (h h' : store) p :
  normalizeArguments args h = (Normal p, h') ->
  args <> [VNull] -> is_nullish p = false.
Proof.
  intros Hn Hargs.
  destruct (normalizeArguments_returns args h) as (p' & h'' & Hn' & Hp).
  rewrite Hn in Hn'. simplify_eq.
  destruct p'; try done. by apply normalizeArguments_null in Hn.
Qed.

Section UnsubscribeCases.

Variable reply : list call -> call -> value.

(** With nothing tracked the callback of [filter] never runs. *)
Lemma unsubscribe_run_empty args st p h' :
  normalizeArguments args (heap st) = (Normal p, h') ->
  subscriptions st = [] ->
  Record_unsubscribe reply args st
  = (Normal VUndef,
     {| heap := h'; subscriptions := [];
        calls := calls st ++ [CallUnsubscribe p] |}).
Proof.
  intros Hn Hs. unfold Record_unsubscribe.
  unfold bind at 1. unfold with_heap at 1. rewrite Hn.
  unfold bind at 1. unfold gets. simpl. rewrite Hs. reflexivity.
Qed.

(** The two ways [unsubscribe] can end. *)
Lemma unsubscribe_cases args st p h' :
  normalizeArguments args (heap st) = (Normal p, h') ->
  Record_unsubscribe reply args st
  = if unsubscribe_throws p (subscriptions st)
    then (Throw TypeError,
          {| heap := h'; subscriptions := subscriptions st;
             calls := calls st |})
    else (Normal VUndef,
          {| heap := h';
             subscriptions := filter (fun e => same_pair h' e p = false)
                                (subscriptions st);
             calls := calls st ++ [CallUnsubscribe p] |}).
Proof.
  intros Hn. unfold unsubscribe_throws.
  case_bool_decide as Hs; simpl.
  { rewrite (unsubscribe_run_empty _ _ _ _ Hn Hs). by rewrite Hs. }
  destruct (is_nullish p) eqn:Hp; simpl.
  { apply (unsubscribe_throw _ _ _ _ _ Hn Hs). by left. }
  destruct (existsb is_nullish (subscriptions st)) eqn:He.
  - apply (unsubscribe_throw _ _ _ _ _ Hn Hs). right.
    by apply existsb_nullish_true.
  - apply (unsubscribe_run _ _ _ _ _ Hn Hp).
    by apply existsb_nullish_false.
Qed.

End UnsubscribeCases.

(** C10 as stated fails: after [subscribe(null)], which tracks [null],
    [unsubscribe(null)] throws a [TypeError]. *)
Lemma unsubscribe_after_null_throws :
  (Record_subscribe silent_record [VNull] fresh_facade).1 = Normal VUndef
  /\ subscriptions (Record_subscribe silent_record [VNull] fresh_facade).2
     = [VNull]
  /\ (Record_unsubscribe silent_record [VNull]
        (Record_subscribe silent_record [VNull] fresh_facade).2).1
     = Throw TypeError
  /\ (Record_unsubscribe silent_record [VStr "p"; VFun 0]
        (Record_subscribe silent_record [VNull] fresh_facade).2).1
     = Throw TypeError.
Proof. vm_compute. repeat split. Qed.

(** C10, amended.  The subscribe normalizer returns without throwing on
    every argument list and validates nothing; a single argument of type
    ['object'], [null] and arrays included, is returned as it is.  The
    facade's [subscribe] never throws and tracks that value.  The facade's
    [unsubscribe] throws a [TypeError], changing neither the tracked list
    nor the calls, exactly when some entry is tracked and the normalized
    request or a tracked entry is [null] (see [unsubscribe_throws]);
    otherwise it returns normally. *)
Theorem subscribe_normalizer_validates_nothing
    (reply : list call -> call -> value) args (st : facade) :
  normalizeArguments [VNull] (heap st) = (Normal VNull, heap st)
  /\ (forall l, normalizeArguments [VObj l] (heap st)
                = (Normal (VObj l), heap st))
  /\ exists p h',
       normalizeArguments args (heap st) = (Normal p, h')
       /\ Record_subscribe reply args st
          = (Normal VUndef,
             {| heap := h';
                subscriptions := subscriptions st ++ [p];
                calls := calls st ++ [CallSubscribe p] |})
       /\ Record_unsubscribe reply args st
          = if unsubscribe_throws p (subscriptions st)
            then (Throw TypeError,
                  {| heap := h'; subscriptions := subscriptions st;
                     calls := calls st |})
            else (Normal VUndef,
                  {| heap := h';
                     subscriptions :=
                       filter (fun e => same_pair h' e p = false)
                         (subscriptions st);
                     calls := calls st ++ [CallUnsubscribe p] |}).
Proof.
  split; [by apply normalizeArguments_single_object |].
  split; [intros l; by apply normalizeArguments_single_object |].
  destruct (normalizeArguments_returns args (heap st)) as (p & h' & Hn & _).
  exists p, h'. split; [done |]. split.
  - by apply subscribe_run.
  - by apply unsubscribe_cases.
Qed.

(** C3 as stated fails for a call that has no pair to compare:
    [unsubscribe(null)] on a facade that tracks entries throws a
    [TypeError] when the callback of [filter] reads [parameters.path];
    nothing is removed and nothing is forwarded. *)
Lemma unsubscribe_null_is_not_forwarded :
  subscriptions busy_facade
  = [VObj 1%positive; VObj 2%positive; VObj 3%positive]
  /\ Record_unsubscribe silent_record [VNull] busy_facade
     = (Throw TypeError, busy_facade)
  /\ calls (Record_unsubscribe silent_record [VNull] busy_facade).2
     = calls busy_facade.
Proof. vm_compute. repeat split. Qed.

(** C3, amended.  For every tracked list whose entries are objects
    (none is [null]) and every call to [unsubscribe] whose request
    normalizes to an object (not [null]), [unsubscribe] returns normally, keeps exactly
    the entries whose (path, callback) pair differs from the request's, in
    their order, so that every matching entry is removed and not only the
    first, and forwards the normalized request to the underlying record,
    also when no entry matched. *)
Theorem unsubscribe_removes_every_match
    (reply : list call -> call -> value) args (st : facade) :
  args <> [VNull] ->
  Forall (fun e => is_nullish e = false) (subscriptions st) ->
  exists p h' kept,
    normalizeArguments args (heap st) = (Normal p, h')
    /\ Record_unsubscribe reply args st
       = (Normal VUndef,
          {| heap := h'; subscriptions := kept;
             calls := calls st ++ [CallUnsubscribe p] |})
    /\ kept = filter (fun e => same_pair h' e p = false) (subscriptions st)
    /\ (forall e, same_pair h' e p = true -> e ∉ kept)
    /\ (forall e, e ∈ subscriptions st -> same_pair h' e p = false ->
                  e ∈ kept)
    /\ ((forall e, e ∈ subscriptions st -> same_pair h' e p = false) ->
        kept = subscriptions st).
Proof.
  intros Hargs Hsubs.
  destruct (normalizeArguments_returns args (heap st)) as (p & h' & Hn & _).
  exists p, h', (filter (fun e => same_pair h' e p = false)
                   (subscriptions st)).
  split; [done |]. split.
  { apply unsubscribe_run; [done | | done].
    by eapply normalizeArguments_not_nullish. }
  split; [done |]. split; [| split].
  - intros e He [Hf _]%list_elem_of_filter. congruence.
  - intros e He Hf. by apply list_elem_of_filter.
  - apply filter_keeps_all.
Qed.

Example unsubscribe_busy_facade :
  subscriptions busy_facade
  = [VObj 1%positive; VObj 2%positive; VObj 3%positive]
  /\ subscriptions
       (Record_unsubscribe silent_record [VStr "p"; VFun 0] busy_facade).2
     = [VObj 2%positive].
Proof. vm_compute. split; reflexivity. Qed.

Lemma unsubscribe_removes_every_match_witness :
  exists p h' kept,
    normalizeArguments [VStr "p"; VFun 0] (heap busy_facade)
    = (Normal p, h')
    /\ Record_unsubscribe silent_record [VStr "p"; VFun 0] busy_facade
       = (Normal VUndef,
          {| heap := h'; subscriptions := kept;
             calls := calls busy_facade ++ [CallUnsubscribe p] |})
    /\ kept = filter (fun e => same_pair h' e p = false)
                (subscriptions busy_facade)
    /\ (forall e, same_pair h' e p = true -> e ∉ kept)
    /\ (forall e, e ∈ subscriptions busy_facade ->
                  same_pair h' e p = false -> e ∈ kept)
    /\ ((forall e, e ∈ subscriptions busy_facade ->
                   same_pair h' e p = false) ->
        kept = subscriptions busy_facade).
Proof.
  apply (unsubscribe_removes_every_match silent_record
           [VStr "p"; VFun 0] busy_facade).
  - discriminate.
  - vm_compute. repeat constructor.
Defined.

(** *** Duplicates *)

Lemma strict_eq_self v :
  typeof v = TString \/ typeof v = TFunction \/ v = VUndef ->
  strict_eq v v = true.
Proof.
  destruct v; intros [? | [? | ?]]; try done;
    unfold strict_eq; by rewrite bool_decide_eq_true_2.
Qed.

(** The path and the callback a scan leaves are strings, functions or
    absent, so each equals itself under [===]. *)
Lemma scan_path_self_equal args :
  strict_eq (default VUndef (foldl assign ∅ args !! "path"))
            (default VUndef (foldl assign ∅ args !! "path")) = true.
Proof.
  apply strict_eq_self. rewrite assign_fold_path, lookup_empty.
  destruct (last_of_type TString args) eqn:E; simpl; [| auto].
  left. by eapply last_of_type_typeof.
Qed.

Lemma scan_callback_self_equal args :
  strict_eq (default VUndef (foldl assign ∅ args !! "callback"))
            (default VUndef (foldl assign ∅ args !! "callback")) = true.
Proof.
  apply strict_eq_self. rewrite assign_fold_callback, lookup_empty.
  destruct (last_of_type TFunction args) eqn:E; simpl; [| auto].
  right; left. by eapply last_of_type_typeof.
Qed.

(** Two objects made by scanning the same arguments have the same
    pair. *)
Lemma same_pair_scan (h : store) l l' args :
  h !! l = Some {| obj_class := NullProto;
                   obj_props := foldl assign ∅ args |} ->
  h !! l' = Some {| obj_class := NullProto;
                    obj_props := foldl assign ∅ args |} ->
  same_pair h (VObj l) (VObj l') = true.
Proof.
  intros Hl Hl'. unfold same_pair, prop_of. rewrite Hl, Hl'. simpl.
  by rewrite scan_path_self_equal, scan_callback_self_equal.
Qed.

Lemma scan_registers_pair args (h : store) :
  passes_through args = false -> registers_pair args h.
Proof.
  intros Hpt. eexists _, _. split; [by apply normalizeArguments_scan |].
  split; [done |].
  apply (same_pair_scan _ _ _ args); by rewrite lookup_insert_eq.
Qed.

(** C2 as stated fails: after two [subscribe("p", f0)] a single
    [unsubscribe("p", f0)] removes both tracked entries, not one. *)
Lemma one_unsubscribe_clears_both :
  subscriptions
    (Record_subscribe silent_record [VStr "p"; VFun 0]
       (Record_subscribe silent_record [VStr "p"; VFun 0]
          fresh_facade).2).2 = [VObj 1%positive; VObj 2%positive]
  /\ Record_unsubscribe silent_record [VStr "p"; VFun 0]
       (Record_subscribe silent_record [VStr "p"; VFun 0]
          (Record_subscribe silent_record [VStr "p"; VFun 0]
             fresh_facade).2).2
     = (Normal VUndef,
        {| heap := (normalizeArguments [VStr "p"; VFun 0]
                      (heap (Record_subscribe silent_record
                               [VStr "p"; VFun 0]
                               (Record_subscribe silent_record
                                  [VStr "p"; VFun 0]
                                  fresh_facade).2).2)).2;
           subscriptions := [];
           calls := calls fresh_facade
                    ++ [CallSubscribe (VObj 1%positive);
                        CallSubscribe (VObj 2%positive);
                        CallUnsubscribe (VObj 3%positive)] |})
  /\ length (subscriptions
               (Record_unsubscribe silent_record [VStr "p"; VFun 0]
                  (Record_subscribe silent_record [VStr "p"; VFun 0]
                     (Record_subscribe silent_record [VStr "p"; VFun 0]
                        fresh_facade).2).2).2) <> 1.
Proof. vm_compute. repeat split. discriminate. Qed.

(** C2, amended.  When the same arguments, resolving to a (path,
    callback) pair, are registered twice via [subscribe] (two more
    tracked entries), one [unsubscribe] with these arguments removes both
    of them together with every other entry of the same pair: what stays
    tracked are the earlier entries of a different pair, and no second
    [unsubscribe] is needed to clear the pair. *)
Theorem unsubscribe_removes_both_duplicates
    (reply : list call -> call -> value) args (st : facade) :
  Forall (fun e => is_nullish e = false) (subscriptions st) ->
  registers_pair args (heap st) ->
  exists st1 st2 st3 p,
    Record_subscribe reply args st = (Normal VUndef, st1)
    /\ Record_subscribe reply args st1 = (Normal VUndef, st2)
    /\ length (subscriptions st2) = length (subscriptions st) + 2
    /\ Record_unsubscribe reply args st2 = (Normal VUndef, st3)
    /\ calls st3 = calls st2 ++ [CallUnsubscribe p]
    /\ subscriptions st3
       = filter (fun e => same_pair (heap st3) e p = false)
           (subscriptions st)
    /\ length (subscriptions st3) <= length (subscriptions st).
Proof.
  intros Hsubs (p0 & h0 & Hn0 & Hp0 & Hpair).
  destruct (passes_through args) eqn:Hpt.
  - destruct (passes_through_inv _ Hpt) as (v & -> & Hv).
    pose proof (fun h : store => normalizeArguments_single_object v h Hv)
      as Hn.
    rewrite Hn in Hn0. simplify_eq.
    eexists _, _, _, p0.
    split; [by apply subscribe_run |].
    split; [by apply subscribe_run |]. simpl.
    split; [rewrite !length_app; simpl; lia |].
    split.
    { apply unsubscribe_run; simpl; [done | done |].
      rewrite !Forall_app. repeat split; by try constructor. }
    cbn [subscriptions heap calls]. split; [done |].
    rewrite !filter_app, !filter_drops_single, !app_nil_r by congruence.
    split; [done | apply length_filter].
  - set (o := {| obj_class := NullProto; obj_props := foldl assign ∅ args |}).
    set (h := heap st).
    set (l1 := fresh (dom h)). set (h1 := <[l1 := o]> h).
    set (l2 := fresh (dom h1)). set (h2 := <[l2 := o]> h1).
    set (l3 := fresh (dom h2)). set (h3 := <[l3 := o]> h2).
    assert (l1 ∈ dom h1) as Hd1 by (apply elem_of_dom; unfold h1;
      rewrite lookup_insert_eq; by eexists).
    assert (l2 ∈ dom h2) as Hd2 by (apply elem_of_dom; unfold h2;
      rewrite lookup_insert_eq; by eexists).
    assert (l2 ∉ dom h1) as Hf2 by apply is_fresh.
    assert (l3 ∉ dom h2) as Hf3 by apply is_fresh.
    assert (l1 <> l2) as H12 by (intros E; apply Hf2; by rewrite <- E).
    assert (l1 ∈ dom h2) as Hd12.
    { apply elem_of_dom. unfold h2, h1.
      rewrite lookup_insert_ne, lookup_insert_eq by done. by eexists. }
    assert (l1 <> l3) as H13 by (intros E; apply Hf3; by rewrite <- E).
    assert (l2 <> l3) as H23 by (intros E; apply Hf3; by rewrite <- E).
    assert (h3 !! l1 = Some o) as Hl1.
    { unfold h3, h2, h1.
      by rewrite !lookup_insert_ne, lookup_insert_eq by done. }
    assert (h3 !! l2 = Some o) as Hl2.
    { unfold h3, h2. by rewrite lookup_insert_ne, lookup_insert_eq by done. }
    assert (h3 !! l3 = Some o) as Hl3.
    { unfold h3. by rewrite lookup_insert_eq. }
    exists {| heap := h1; subscriptions := subscriptions st ++ [VObj l1];
              calls := calls st ++ [CallSubscribe (VObj l1)] |}.
    exists {| heap := h2;
              subscriptions := (subscriptions st ++ [VObj l1]) ++ [VObj l2];
              calls := (calls st ++ [CallSubscribe (VObj l1)])
                         ++ [CallSubscribe (VObj l2)] |}.
    exists {| heap := h3;
              subscriptions :=
                filter (fun e => same_pair h3 e (VObj l3) = false)
                  ((subscriptions st ++ [VObj l1]) ++ [VObj l2]);
              calls := ((calls st ++ [CallSubscribe (VObj l1)])
                          ++ [CallSubscribe (VObj l2)])
                         ++ [CallUnsubscribe (VObj l3)] |}.
    exists (VObj l3).
    split; [apply subscribe_run; by apply normalizeArguments_scan |].
    split; [apply subscribe_run; by apply normalizeArguments_scan |].
    simpl.
    split; [rewrite !length_app; simpl; lia |].
    split.
    { apply unsubscribe_run; simpl;
        [by apply normalizeArguments_scan | done |].
      rewrite !Forall_app. repeat split; by try constructor. }
    split; [done |].
    rewrite !filter_app.
    rewrite (filter_drops_single _ (VObj l1)), (filter_drops_single _ (VObj l2)).
    + rewrite !app_nil_r. split; [done | apply length_filter].
    + rewrite (same_pair_scan h3 l2 l3 args Hl2 Hl3). discriminate.
    + rewrite (same_pair_scan h3 l1 l3 args Hl1 Hl3). discriminate.
Qed.

Lemma unsubscribe_removes_both_duplicates_witness :
  exists st1 st2 st3 p,
    Record_subscribe silent_record [VStr "p"; VFun 0] busy_facade
    = (Normal VUndef, st1)
    /\ Record_subscribe silent_record [VStr "p"; VFun 0] st1
       = (Normal VUndef, st2)
    /\ length (subscriptions st2) = length (subscriptions busy_facade) + 2
    /\ Record_unsubscribe silent_record [VStr "p"; VFun 0] st2
       = (Normal VUndef, st3)
    /\ calls st3 = calls st2 ++ [CallUnsubscribe p]
    /\ subscriptions st3
       = filter (fun e => same_pair (heap st3) e p = false)
           (subscriptions busy_facade)
    /\ length (subscriptions st3) <= length (subscriptions busy_facade).
Proof.
  apply (unsubscribe_removes_both_duplicates silent_record
           [VStr "p"; VFun 0] busy_facade).
  - vm_compute. repeat constructor.
  - eexists _, _. split; [reflexivity |].
    split; vm_compute; reflexivity.
Defined.

(** Why the pair has to equal itself: an object whose path is [NaN]
    matches nothing under [===], not even itself, so [unsubscribe] of the
    very object that was subscribed twice removes neither entry. *)
Example nan_path_is_never_removed :
  subscriptions
    (Record_unsubscribe silent_record [VObj 1%positive]
       (Record_subscribe silent_record [VObj 1%positive]
          (Record_subscribe silent_record [VObj 1%positive]
             (new_Record nan_store [])).2).2).2
  = [VObj 1%positive; VObj 1%positive].
Proof. vm_compute. reflexivity. Qed.

(** * Further properties *)

(** ** The set normalizer, arity by arity *)

Lemma arg_at_app_r (pre args : list value) i :
  arg_at (pre ++ args) (length pre + i) = arg_at args i.
Proof. unfold arg_at. by rewrite lookup_app_r, Nat.add_comm, Nat.add_sub by lia. Qed.

(** Case analysis on a value, down to whether a string is empty and
    which boolean it is. *)
Ltac value_cases v :=
  destruct v as [| | [|] | [|?] | [|? ?] | ? | ? | ?].

(** X1.  With fewer than one or more than three arguments beyond
    [startIndex] the set normalizer throws "Invalid set arguments",
    whatever the arguments are. *)
Theorem set_normalizer_rejects_other_arities args startIndex :
  length args < startIndex + 1 \/ startIndex + 3 < length args ->
  normalizeSetArguments args startIndex
  = Throw (Error "Invalid set arguments").
Proof.
  intros Hlen. apply normalizeSetArguments_bad_arity; lia.
Qed.

Lemma set_normalizer_rejects_other_arities_witness :
  normalizeSetArguments [] 0 = Throw (Error "Invalid set arguments")
  /\ normalizeSetArguments
       [VStr "a"; VObj 1%positive; VFun 0; VBool true] 0
     = Throw (Error "Invalid set arguments").
Proof.
  split; apply set_normalizer_rejects_other_arities; simpl; lia.
Defined.

Lemma validate_set_valid r r' :
  validate_set r = Normal r' -> r' = r.
Proof.
  unfold validate_set. repeat case_match; congruence.
Qed.

Lemma set_arity1_valid args startIndex r :
  validate_set (set_arity1 args startIndex) = Normal r ->
  valid_set_request r.
Proof.
  intros Hv. rewrite (validate_set_valid _ _ Hv). revert Hv.
  unfold set_arity1. generalize (arg_at args startIndex). intros a.
  value_cases a; intros Hv; try discriminate Hv;
    unfold valid_set_request; simpl; intuition congruence.
Qed.

Lemma set_arity2_valid args startIndex r :
  validate_set (set_arity2 args startIndex) = Normal r ->
  valid_set_request r.
Proof.
  intros Hv. rewrite (validate_set_valid _ _ Hv). revert Hv.
  unfold set_arity2.
  generalize (arg_at args startIndex), (arg_at args (startIndex + 1)).
  intros a b.
  value_cases a; value_cases b; intros Hv; try discriminate Hv;
    unfold valid_set_request; simpl; intuition congruence.
Qed.

Lemma set_arity3_valid args startIndex r :
  validate_set (set_arity3 args startIndex) = Normal r ->
  valid_set_request r.
Proof.
  intros Hv. rewrite (validate_set_valid _ _ Hv). revert Hv.
  unfold set_arity3.
  generalize (arg_at args startIndex), (arg_at args (startIndex + 1)),
    (arg_at args (startIndex + 2)).
  intros a b c.
  value_cases a; value_cases b; intros Hv; try discriminate Hv;
    value_cases c; try discriminate Hv;
    unfold valid_set_request; simpl; intuition congruence.
Qed.

Lemma normalizeSetArguments_valid args startIndex r :
  normalizeSetArguments args startIndex = Normal r ->
  valid_set_request r.
Proof.
  destruct (decide (length args = startIndex + 1)) as [H1 | H1].
  { rewrite normalizeSetArguments_arity1 by done. apply set_arity1_valid. }
  destruct (decide (length args = startIndex + 2)) as [H2 | H2].
  { rewrite normalizeSetArguments_arity2 by done. apply set_arity2_valid. }
  destruct (decide (length args = startIndex + 3)) as [H3 | H3].
  { rewrite normalizeSetArguments_arity3 by done. apply set_arity3_valid. }
  by rewrite normalizeSetArguments_bad_arity.
Qed.

(** X2.  Every request the set normalizer returns is well formed: its
    path is absent or a non-empty string, its callback is absent or a
    function, its data is neither a function nor [false], data is absent
    only under a path, and without a path the data has type ['object']. *)
Theorem set_normalizer_returns_valid_requests args startIndex r :
  normalizeSetArguments args startIndex = Normal r ->
  valid_set_request r.
Proof. apply normalizeSetArguments_valid. Qed.

Lemma set_normalizer_returns_valid_requests_witness :
  valid_set_request {| set_path := VStr "a/b"; set_data := VNum (Num 1);
                       set_callback := VFun 0 |}.
Proof.
  apply (set_normalizer_returns_valid_requests
           [VStr "a/b"; VNum (Num 1); VFun 0] 0).
  reflexivity.
Defined.

(** X3.  With a single argument the set normalizer accepts exactly the
    values of type ['object'] ([null] among them), as data of the whole
    record without path or callback; anything else is an "Invalid set
    data argument". *)
Theorem set_normalizer_single_argument args startIndex :
  length args = startIndex + 1 ->
  normalizeSetArguments args startIndex
  = if bool_decide (typeof (arg_at args startIndex) = TObject)
    then Normal {| set_path := VUndef;
                   set_data := arg_at args startIndex;
                   set_callback := VUndef |}
    else Throw (Error "Invalid set data argument").
Proof.
  intros Hlen. rewrite normalizeSetArguments_arity1 by done.
  unfold set_arity1. generalize (arg_at args startIndex). intros a.
  by value_cases a.
Qed.

Lemma set_normalizer_single_argument_witness :
  normalizeSetArguments [VStr "skipped"; VNull] 1
  = if bool_decide (typeof (arg_at [VStr "skipped"; VNull] 1) = TObject)
    then Normal {| set_path := VUndef;
                   set_data := arg_at [VStr "skipped"; VNull] 1;
                   set_callback := VUndef |}
    else Throw (Error "Invalid set data argument").
Proof.
  apply (set_normalizer_single_argument [VStr "skipped"; VNull] 1).
  reflexivity.
Defined.

(** X4.  With two arguments the set normalizer returns in exactly two
    cases: a non-empty string followed by a value that is neither a
    function nor [false] (path and data), or a value of type ['object']
    followed by a function (data and callback).  In particular
    [(path, callback)] and [(path, false)] are rejected. *)
Theorem set_normalizer_two_arguments args startIndex r :
  length args = startIndex + 2 ->
  normalizeSetArguments args startIndex = Normal r
  <-> (nonempty_string (arg_at args startIndex) = true
       /\ typeof (arg_at args (startIndex + 1)) <> TFunction
       /\ arg_at args (startIndex + 1) <> VBool false
       /\ r = {| set_path := arg_at args startIndex;
                 set_data := arg_at args (startIndex + 1);
                 set_callback := VUndef |})
      \/ (typeof (arg_at args startIndex) = TObject
          /\ typeof (arg_at args (startIndex + 1)) = TFunction
          /\ r = {| set_path := VUndef;
                    set_data := arg_at args startIndex;
                    set_callback := arg_at args (startIndex + 1) |}).
Proof.
  intros Hlen. rewrite normalizeSetArguments_arity2 by done.
  unfold set_arity2.
  generalize (arg_at args startIndex), (arg_at args (startIndex + 1)).
  intros a b.
  value_cases a; value_cases b; simpl; split;
    try (intros [= <-]; auto 10; fail);
    try (intros [(? & ? & ? & ->) | (? & ? & ->)];
         simpl in *; first [congruence | reflexivity]).
Qed.

Lemma set_normalizer_two_arguments_witness :
  normalizeSetArguments [VStr "a"; VUndef] 0
  = Normal {| set_path := VStr "a"; set_data := VUndef;
              set_callback := VUndef |}
  <-> (nonempty_string (arg_at [VStr "a"; VUndef] 0) = true
       /\ typeof (arg_at [VStr "a"; VUndef] (0 + 1)) <> TFunction
       /\ arg_at [VStr "a"; VUndef] (0 + 1) <> VBool false
       /\ {| set_path := VStr "a"; set_data := VUndef;
             set_callback := VUndef |}
          = {| set_path := arg_at [VStr "a"; VUndef] 0;
               set_data := arg_at [VStr "a"; VUndef] (0 + 1);
               set_callback := VUndef |})
      \/ (typeof (arg_at [VStr "a"; VUndef] 0) = TObject
          /\ typeof (arg_at [VStr "a"; VUndef] (0 + 1)) = TFunction
          /\ {| set_path := VStr "a"; set_data := VUndef;
                set_callback := VUndef |}
             = {| set_path := VUndef;
                  set_data := arg_at [VStr "a"; VUndef] 0;
                  set_callback := arg_at [VStr "a"; VUndef] (0 + 1) |}).
Proof.
  apply (set_normalizer_two_arguments [VStr "a"; VUndef] 0). reflexivity.
Defined.

(** X5.  With three arguments the mapping is positional and the first
    failing check decides the error: the first argument must be a
    non-empty string, else "Invalid set path argument"; the second must
    be neither a function nor [false], else "Invalid set data argument";
    the third must be a function, else "Invalid set callback argument";
    otherwise the three arguments are returned as path, data and
    callback. *)
Theorem set_normalizer_three_arguments args startIndex :
  length args = startIndex + 3 ->
  normalizeSetArguments args startIndex
  = if negb (nonempty_string (arg_at args startIndex))
    then Throw (Error "Invalid set path argument")
    else if isCallback (arg_at args (startIndex + 1))
            || strict_eq (arg_at args (startIndex + 1)) (VBool false)
    then Throw (Error "Invalid set data argument")
    else if negb (isCallback (arg_at args (startIndex + 2)))
    then Throw (Error "Invalid set callback argument")
    else Normal {| set_path := arg_at args startIndex;
                   set_data := arg_at args (startIndex + 1);
                   set_callback := arg_at args (startIndex + 2) |}.
Proof.
  intros Hlen. rewrite normalizeSetArguments_arity3 by done.
  unfold set_arity3.
  generalize (arg_at args startIndex), (arg_at args (startIndex + 1)),
    (arg_at args (startIndex + 2)).
  intros a b c.
  value_cases a; try reflexivity; value_cases b; try reflexivity;
    by value_cases c.
Qed.

Lemma set_normalizer_three_arguments_witness :
  normalizeSetArguments [VStr "p"; VBool false; VFun 0] 0
  = if negb (nonempty_string (arg_at [VStr "p"; VBool false; VFun 0] 0))
    then Throw (Error "Invalid set path argument")
    else if isCallback (arg_at [VStr "p"; VBool false; VFun 0] (0 + 1))
            || strict_eq (arg_at [VStr "p"; VBool false; VFun 0] (0 + 1))
                 (VBool false)
    then Throw (Error "Invalid set data argument")
    else if negb (isCallback
                    (arg_at [VStr "p"; VBool false; VFun 0] (0 + 2)))
    then Throw (Error "Invalid set callback argument")
    else Normal {| set_path := arg_at [VStr "p"; VBool false; VFun 0] 0;
                   set_data :=
                     arg_at [VStr "p"; VBool false; VFun 0] (0 + 1);
                   set_callback :=
                     arg_at [VStr "p"; VBool false; VFun 0] (0 + 2) |}.
Proof.
  apply (set_normalizer_three_arguments [VStr "p"; VBool false; VFun 0] 0).
  reflexivity.
Defined.

(** X6.  Arguments before [startIndex] are never looked at: normalizing
    from [startIndex] behind a prefix is normalizing without the
    prefix. *)
Theorem set_normalizer_skips_prefix (pre args : list value) startIndex :
  normalizeSetArguments (pre ++ args) (length pre + startIndex)
  = normalizeSetArguments args startIndex.
Proof.
  unfold normalizeSetArguments, set_arity1, set_arity2, set_arity3.
  rewrite length_app, <- !Nat.add_assoc, !arg_at_app_r.
  rewrite (bool_decide_ext (length pre + length args
                            = length pre + (startIndex + 1))
             (length args = startIndex + 1)) by lia.
  rewrite (bool_decide_ext (length pre + length args
                            = length pre + (startIndex + 2))
             (length args = startIndex + 2)) by lia.
  rewrite (bool_decide_ext (length pre + length args
                            = length pre + (startIndex + 3))
             (length args = startIndex + 3)) by lia.
  reflexivity.
Qed.

(** ** The subscribe normalizer: what the scan depends on *)

Lemma assign_not_scanned ps a : scanned a = false -> assign ps a = ps.
Proof.
  unfold scanned, assign.
  intros [[-> ->]%orb_false_iff ->]%orb_false_iff. reflexivity.
Qed.

Lemma assign_fold_filter args : forall ps,
  foldl assign ps (filter (fun a => scanned a = true) args)
  = foldl assign ps args.
Proof.
  induction args as [| a args IH]; intros ps; [done |].
  rewrite filter_cons. destruct (scanned a) eqn:Ha; simpl.
  - apply IH.
  - rewrite assign_not_scanned by done. apply IH.
Qed.

Lemma scanned_never_passes_through args :
  passes_through (filter (fun a => scanned a = true) args) = false.
Proof.
  unfold passes_through.
  destruct (filter _ args) as [| v [| ? ?]] eqn:Hf; try done.
  assert (v ∈ filter (fun a => scanned a = true) args) as Hv
    by (rewrite Hf; left).
  apply list_elem_of_filter in Hv as [Hv _].
  simpl. rewrite (bool_decide_eq_false_2 (typeof v = TObject)); [done |].
  intros Ht. unfold scanned in Hv. rewrite Ht in Hv. discriminate.
Qed.

(** X7.  In a call that is not a lone object, only strings, functions and
    booleans count: dropping every other argument ([undefined], [null],
    numbers, objects) gives the same request and the same store. *)
Theorem scan_ignores_other_types args (h : store) :
  passes_through args = false ->
  normalizeArguments (filter (fun a => scanned a = true) args) h
  = normalizeArguments args h.
Proof.
  intros Hpt.
  rewrite (normalizeArguments_scan args) by done.
  rewrite normalizeArguments_scan by apply scanned_never_passes_through.
  by rewrite assign_fold_filter.
Qed.

Lemma scan_ignores_other_types_witness :
  normalizeArguments
    (filter (fun a => scanned a = true)
       [VStr "p"; VUndef; VFun 0; VNull; VNum (Num 3)]) ∅
  = normalizeArguments [VStr "p"; VUndef; VFun 0; VNull; VNum (Num 3)] ∅.
Proof.
  apply (scan_ignores_other_types
           [VStr "p"; VUndef; VFun 0; VNull; VNum (Num 3)] ∅).
  reflexivity.
Defined.

Lemma assign_fold_other args k : forall ps,
  k <> "path" -> k <> "callback" -> k <> "triggerNow" ->
  foldl assign ps args !! k = ps !! k.
Proof.
  induction args as [| a args IH] using rev_ind; intros ps H1 H2 H3;
    [done |].
  rewrite foldl_snoc. unfold assign at 1.
  repeat case_bool_decide; rewrite ?lookup_insert_ne by done; by apply IH.
Qed.

(** Arguments of pairwise different types: at most one of each type. *)
Lemma at_most_one_of_type t args :
  NoDup (typeof <$> args) ->
  length (filter (fun a => typeof a = t) args) <= 1.
Proof.
  induction args as [| a args IH]; [simpl; lia |].
  rewrite fmap_cons, NoDup_cons. intros [Ha Hnd].
  rewrite filter_cons. case_decide as Ht; [| by apply IH].
  assert (filter (fun a => typeof a = t) args = []) as ->; [| simpl; lia].
  destruct (filter _ args) as [| b ?] eqn:Hf; [done |].
  assert (b ∈ filter (fun a => typeof a = t) args) as Hb
    by (rewrite Hf; left).
  apply list_elem_of_filter in Hb as [Hb Hin].
  destruct Ha. rewrite Ht, <- Hb. by apply list_elem_of_fmap_2.
Qed.

Lemma last_of_type_permutation t args args' :
  NoDup (typeof <$> args) -> args ≡ₚ args' ->
  last_of_type t args = last_of_type t args'.
Proof.
  intros Hnd Hp. unfold last_of_type.
  pose proof (at_most_one_of_type t args Hnd) as Hlen.
  assert (filter (fun a => typeof a = t) args
          ≡ₚ filter (fun a => typeof a = t) args') as Hf by by rewrite Hp.
  destruct (filter _ args) as [| x [| ? ?]]; simpl in Hlen; [| | lia].
  - by apply Permutation_nil_l in Hf as <-.
  - by apply Permutation_singleton_l in Hf as <-.
Qed.

Lemma scan_permutation args args' :
  NoDup (typeof <$> args) -> args ≡ₚ args' ->
  foldl assign ∅ args = foldl assign ∅ args'.
Proof.
  intros Hnd Hp. apply map_eq. intros k.
  destruct (decide (k = "path")) as [-> | H1].
  { rewrite !assign_fold_path.
    by rewrite (last_of_type_permutation _ _ _ Hnd Hp). }
  destruct (decide (k = "callback")) as [-> | H2].
  { rewrite !assign_fold_callback.
    by rewrite (last_of_type_permutation _ _ _ Hnd Hp). }
  destruct (decide (k = "triggerNow")) as [-> | H3].
  { rewrite !assign_fold_triggerNow.
    by rewrite (last_of_type_permutation _ _ _ Hnd Hp). }
  by rewrite !assign_fold_other.
Qed.

(** X8.  When the arguments have pairwise different runtime types, their
    order does not matter: every reordering normalizes to the same
    request, [normalizeArguments(fn, "p", true)] as
    [normalizeArguments("p", fn, true)]. *)
Theorem scan_order_is_irrelevant args args' (h : store) :
  NoDup (typeof <$> args) ->
  args ≡ₚ args' ->
  normalizeArguments args' h = normalizeArguments args h.
Proof.
  intros Hnd Hp.
  destruct args as [| a [| b args]].
  - by apply Permutation_nil_l in Hp as <-.
  - by apply Permutation_singleton_l in Hp as <-.
  - assert (passes_through (a :: b :: args) = false) as Hpt by done.
    assert (passes_through args' = false) as Hpt'.
    { unfold passes_through. apply Permutation_length in Hp.
      rewrite bool_decide_eq_false_2; [done |]. simpl in Hp. lia. }
    rewrite !normalizeArguments_scan by done.
    by rewrite (scan_permutation _ _ Hnd Hp).
Qed.

Lemma scan_order_is_irrelevant_witness :
  normalizeArguments [VStr "p"; VFun 0; VBool true] ∅
  = normalizeArguments [VFun 0; VStr "p"; VBool true] ∅.
Proof.
  apply (scan_order_is_irrelevant [VFun 0; VStr "p"; VBool true]
           [VStr "p"; VFun 0; VBool true] ∅).
  - apply (bool_decide_unpack
             (NoDup (typeof <$> [VFun 0; VStr "p"; VBool true]))).
    vm_compute. exact I.
  - apply perm_swap.
Defined.

(** X9.  The subscribe normalizer never changes an object of the store:
    the store it leaves extends the one it found.  Unless it passes a
    lone object through, what it returns is a new object at an address
    that was unused, and that address is the only addition. *)
Theorem normalizer_only_allocates args (h : store) :
  h ⊆ (normalizeArguments args h).2
  /\ (passes_through args = true ->
      normalizeArguments args h = (Normal (arg_at args 0), h))
  /\ (passes_through args = false ->
      exists l, (normalizeArguments args h).1 = Normal (VObj l)
                /\ h !! l = None
                /\ dom (normalizeArguments args h).2 = {[l]} ∪ dom h).
Proof.
  destruct (passes_through args) eqn:Hpt.
  - rewrite normalizeArguments_pass by done. simpl.
    split; [done |]. split; [done | discriminate].
  - rewrite normalizeArguments_scan by done. simpl.
    assert (h !! fresh (dom h) = None) as Hfresh
      by apply not_elem_of_dom, is_fresh.
    split; [by apply insert_subseteq |]. split; [discriminate |].
    intros _. exists (fresh (dom h)).
    split; [done |]. split; [done |]. by rewrite dom_insert_L.
Qed.

(** ** The facade: what reaches the underlying record *)

(** X10.  [set] and [setWithAck] forward a request only after the set
    normalizer accepted it: a rejected call throws the normalizer's error
    and leaves the facade and the underlying record untouched; an
    accepted one sends exactly one call, carrying a well-formed request,
    and returns the record's answer. *)
Theorem set_forwards_only_valid_requests
    (reply : list call -> call -> value) arguments (st : facade) :
  match normalizeSetArguments arguments 0 with
  | Normal r =>
      valid_set_request r
      /\ Record_set reply arguments st
         = (Normal (reply (calls st) (CallSet r)),
            {| heap := heap st; subscriptions := subscriptions st;
               calls := calls st ++ [CallSet r] |})
      /\ Record_setWithAck reply arguments st
         = (Normal (reply (calls st) (CallSetWithAck r)),
            {| heap := heap st; subscriptions := subscriptions st;
               calls := calls st ++ [CallSetWithAck r] |})
  | Throw e =>
      Record_set reply arguments st = (Throw e, st)
      /\ Record_setWithAck reply arguments st = (Throw e, st)
  end.
Proof.
  unfold Record_set, Record_setWithAck, bind, lift_completion.
  destruct (normalizeSetArguments arguments 0) as [r | e] eqn:Hn.
  - split; [by eapply normalizeSetArguments_valid |]. done.
  - done.
Qed.

(** X11.  [discard] does not forget: a second [discard] sends the same
    unsubscribes again, one per entry and in the same order, and a
    second discard. *)
Theorem discard_twice_repeats_unsubscribes
    (reply : list call -> call -> value) (st : facade) :
  calls (Record_discard reply (Record_discard reply st).2).2
  = calls st
    ++ (map CallUnsubscribe (subscriptions st) ++ [CallDiscard])
    ++ (map CallUnsubscribe (subscriptions st) ++ [CallDiscard])
  /\ subscriptions (Record_discard reply (Record_discard reply st).2).2
     = subscriptions st.
Proof.
  rewrite !discard_run. simpl. split; [| done].
  by rewrite <- !app_assoc.
Qed.

(** X12.  [unsubscribe] never adds or reorders: whatever its arguments,
    and whether it returns or throws, the tracked list it leaves is a
    sublist of the one it found, and the calls made before stay a prefix
    of the calls after. *)
Theorem unsubscribe_only_removes
    (reply : list call -> call -> value) arguments (st : facade) :
  subscriptions (Record_unsubscribe reply arguments st).2
    `sublist_of` subscriptions st
  /\ calls st `prefix_of` calls (Record_unsubscribe reply arguments st).2.
Proof.
  destruct (normalizeArguments_returns arguments (heap st))
    as (p & h' & Hn & _).
  rewrite (unsubscribe_cases reply _ _ _ _ Hn).
  destruct (unsubscribe_throws p (subscriptions st)); simpl.
  - done.
  - split; [apply sublist_filter | by apply prefix_app_r].
Qed.

(** ** The facade: tracked entries stay objects *)

Lemma allocated_weaken (h h' : store) v :
  h ⊆ h' -> allocated h v = true -> allocated h' v = true.
Proof.
  destruct v; simpl; try done. intros Hsub Ha.
  apply bool_decide_eq_true in Ha. apply bool_decide_eq_true.
  by eapply lookup_weaken_is_Some.
Qed.

Lemma allocated_not_nullish (h : store) v :
  allocated h v = true -> is_nullish v = false.
Proof. by destruct v. Qed.

Lemma prop_of_weaken (h h' : store) name v :
  h ⊆ h' -> allocated h v = true -> prop_of h' name v = prop_of h name v.
Proof.
  destruct v; simpl; try done. intros Hsub Ha.
  apply bool_decide_eq_true in Ha as [o Ho].
  by rewrite Ho, (lookup_weaken _ _ _ _ Ho Hsub).
Qed.

Lemma normalizeArguments_extends args (h h' : store) p :
  normalizeArguments args h = (Normal p, h') -> h ⊆ h'.
Proof.
  destruct (passes_through args) eqn:Hpt.
  - rewrite normalizeArguments_pass by done. by intros [= _ <-].
  - rewrite normalizeArguments_scan by done. intros [= _ <-].
    apply insert_subseteq, not_elem_of_dom, is_fresh.
Qed.

Lemma normalizeArguments_allocated args (h h' : store) p :
  normalizeArguments args h = (Normal p, h') ->
  request_allocated h args -> allocated h' p = true.
Proof.
  unfold request_allocated. destruct (passes_through args) eqn:Hpt.
  - rewrite normalizeArguments_pass by done. intros [= <- <-]. auto.
  - rewrite normalizeArguments_scan by done. intros [= <- <-] _. simpl.
    apply bool_decide_eq_true. rewrite lookup_insert_eq. by eexists.
Qed.

Lemma tracked_weaken (h h' : store) subs :
  h ⊆ h' ->
  Forall (fun e => allocated h e = true) subs ->
  Forall (fun e => allocated h' e = true) subs.
Proof.
  intros Hsub Hs. eapply Forall_impl; [exact Hs |].
  intros e. by apply allocated_weaken.
Qed.

Lemma tracked_not_nullish (h : store) subs :
  Forall (fun e => allocated h e = true) subs ->
  Forall (fun e => is_nullish e = false) subs.
Proof.
  intros Hs. eapply Forall_impl; [exact Hs |].
  intros e. apply allocated_not_nullish.
Qed.

Lemma tracked_never_throws (h : store) p subs :
  allocated h p = true ->
  Forall (fun e => allocated h e = true) subs ->
  unsubscribe_throws p subs = false.
Proof.
  intros Hp Hs. unfold unsubscribe_throws.
  rewrite (allocated_not_nullish _ _ Hp). simpl.
  apply tracked_not_nullish in Hs.
  destruct (existsb is_nullish subs) eqn:He; [| by rewrite andb_false_r].
  apply existsb_nullish_true, Exists_exists in He as (e & Hin & He).
  rewrite Forall_forall in Hs. rewrite (Hs e Hin) in He. discriminate.
Qed.

(** X13.  "Every tracked entry is an object of the store" is an invariant
    of the facade: [subscribe] keeps it when it is given positional
    arguments or an object of the store, and every other method keeps it
    whatever it is given.  On such a facade [unsubscribe] with positional
    arguments or an object of the store returns normally. *)
Theorem tracked_entries_stay_objects
    (reply : list call -> call -> value) args (st : facade)
    path mergeStrategy callback :
  tracks_objects st ->
  (request_allocated (heap st) args ->
   tracks_objects (Record_subscribe reply args st).2
   /\ (Record_unsubscribe reply args st).1 = Normal VUndef)
  /\ tracks_objects (Record_unsubscribe reply args st).2
  /\ tracks_objects (Record_discard reply st).2
  /\ tracks_objects (Record_get reply path st).2
  /\ tracks_objects (Record_set reply args st).2
  /\ tracks_objects (Record_setWithAck reply args st).2
  /\ tracks_objects (Record_setMergeStrategy reply mergeStrategy st).2
  /\ tracks_objects (Record_delete reply callback st).2.
Proof.
  unfold tracks_objects. intros Hst.
  destruct (normalizeArguments_returns args (heap st))
    as (p & h' & Hn & _).
  pose proof (normalizeArguments_extends _ _ _ _ Hn) as Hsub.
  pose proof (tracked_weaken _ _ _ Hsub Hst) as Hst'.
  rewrite (subscribe_run reply _ _ _ _ Hn).
  rewrite (unsubscribe_cases reply _ _ _ _ Hn).
  rewrite discard_run.
  split; [| split; [| split]].
  - intros Hreq.
    pose proof (normalizeArguments_allocated _ _ _ _ Hn Hreq) as Hp.
    rewrite (tracked_never_throws h') by done. simpl.
    split; [| done]. apply Forall_app. split; [done |].
    by constructor.
  - destruct (unsubscribe_throws p (subscriptions st)); simpl; [done |].
    apply Forall_forall. intros e [_ He]%list_elem_of_filter.
    rewrite Forall_forall in Hst'. auto.
  - done.
  - unfold Record_get, Record_set, Record_setWithAck,
      Record_setMergeStrategy, Record_delete, bind, lift_completion.
    simpl. destruct (normalizeSetArguments args 0); simpl; auto 10.
Qed.

Lemma tracked_entries_stay_objects_witness :
  (request_allocated (heap busy_facade) [VStr "q"; VFun 0] ->
   tracks_objects
     (Record_subscribe silent_record [VStr "q"; VFun 0] busy_facade).2
   /\ (Record_unsubscribe silent_record [VStr "q"; VFun 0] busy_facade).1
      = Normal VUndef)
  /\ tracks_objects
       (Record_unsubscribe silent_record [VStr "q"; VFun 0] busy_facade).2
  /\ tracks_objects (Record_discard silent_record busy_facade).2
  /\ tracks_objects (Record_get silent_record VUndef busy_facade).2
  /\ tracks_objects
       (Record_set silent_record [VStr "q"; VFun 0] busy_facade).2
  /\ tracks_objects
       (Record_setWithAck silent_record [VStr "q"; VFun 0] busy_facade).2
  /\ tracks_objects
       (Record_setMergeStrategy silent_record VUndef busy_facade).2
  /\ tracks_objects (Record_delete silent_record VUndef busy_facade).2.
Proof.
  apply (tracked_entries_stay_objects silent_record [VStr "q"; VFun 0]
           busy_facade VUndef VUndef VUndef).
  unfold tracks_objects. vm_compute. repeat constructor.
Defined.

(** ** The facade: subscribe and unsubscribe together *)

Lemma scan_slots_are_pair args :
  default VUndef (foldl assign ∅ args !! "path") = (pair_of_args args).1
  /\ default VUndef (foldl assign ∅ args !! "callback")
     = (pair_of_args args).2.
Proof.
  rewrite assign_fold_path, assign_fold_callback, !lookup_empty.
  unfold pair_of_args. simpl.
  by destruct (last_of_type TString args), (last_of_type TFunction args).
Qed.

Lemma filter_agree {A} (P Q : A -> Prop)
    `{!forall x, Decision (P x), !forall x, Decision (Q x)} (l : list A) :
  Forall (fun x => P x <-> Q x) l -> filter P l = filter Q l.
Proof.
  induction 1 as [| x l Hx _ IH]; [done |].
  rewrite !filter_cons, IH.
  destruct (decide (P x)), (decide (Q x)); first [done | exfalso; tauto].
Qed.

(** X14.  Round trip.  On a facade whose tracked entries are objects of
    the store, [subscribe] with positional arguments followed by
    [unsubscribe] with positional arguments of the same path and callback
    (the [triggerNow] flag plays no part) both return normally and leave
    tracked exactly the earlier entries of a different pair; when no
    earlier entry has that pair the tracked list is back to what it
    was. *)
Theorem subscribe_then_unsubscribe
    (reply : list call -> call -> value) args args' (st : facade) :
  tracks_objects st ->
  passes_through args = false ->
  passes_through args' = false ->
  pair_of_args args' = pair_of_args args ->
  exists st1 st2,
    Record_subscribe reply args st = (Normal VUndef, st1)
    /\ Record_unsubscribe reply args' st1 = (Normal VUndef, st2)
    /\ subscriptions st2
       = filter (fun e => has_pair (heap st) (pair_of_args args) e = false)
           (subscriptions st)
    /\ ((forall e, e ∈ subscriptions st ->
                   has_pair (heap st) (pair_of_args args) e = false) ->
        subscriptions st2 = subscriptions st).
Proof.
  unfold tracks_objects. intros Hst Hpt Hpt' Hpair.
  set (h := heap st).
  set (o := {| obj_class := NullProto; obj_props := foldl assign ∅ args |}).
  set (o' := {| obj_class := NullProto;
                obj_props := foldl assign ∅ args' |}).
  set (l1 := fresh (dom h)). set (h1 := <[l1 := o]> h).
  set (l2 := fresh (dom h1)). set (h2 := <[l2 := o']> h1).
  assert (h !! l1 = None) as Hf1 by apply not_elem_of_dom, is_fresh.
  assert (h1 !! l2 = None) as Hf2 by apply not_elem_of_dom, is_fresh.
  assert (l1 <> l2) as H12.
  { intros E. rewrite <- E in Hf2. unfold h1 in Hf2.
    by rewrite lookup_insert_eq in Hf2. }
  assert (h ⊆ h2) as Hsub.
  { etrans; by apply insert_subseteq. }
  assert (h2 !! l1 = Some o) as Hl1.
  { unfold h2, h1. by rewrite lookup_insert_ne, lookup_insert_eq. }
  assert (h2 !! l2 = Some o') as Hl2.
  { unfold h2. by rewrite lookup_insert_eq. }
  destruct (scan_slots_are_pair args) as [Hp Hc].
  destruct (scan_slots_are_pair args') as [Hp' Hc'].
  assert (forall e, allocated h e = true ->
            same_pair h2 e (VObj l2) = has_pair h (pair_of_args args) e)
    as Hsame.
  { intros e He. unfold same_pair, has_pair.
    rewrite (prop_of_weaken h h2 "path"),
      (prop_of_weaken h h2 "callback") by done.
    unfold prop_of at 2 4. rewrite Hl2. simpl.
    by rewrite Hp', Hc', Hpair. }
  assert (same_pair h2 (VObj l1) (VObj l2) = true) as Hnew.
  { unfold same_pair, prop_of. rewrite Hl1, Hl2. simpl.
    rewrite Hp', Hc', Hpair, <- Hp, <- Hc.
    by rewrite scan_path_self_equal, scan_callback_self_equal. }
  assert (filter (fun e => same_pair h2 e (VObj l2) = false)
            (subscriptions st ++ [VObj l1])
          = filter (fun e => has_pair h (pair_of_args args) e = false)
              (subscriptions st)) as Hfilter.
  { rewrite filter_app, filter_drops_single, app_nil_r by congruence.
    apply filter_agree. eapply Forall_impl; [exact Hst |].
    intros e He. simpl. by rewrite Hsame. }
  eexists _, _.
  split; [apply subscribe_run; by apply normalizeArguments_scan |].
  split.
  { apply unsubscribe_run; simpl.
    - by apply normalizeArguments_scan.
    - done.
    - apply Forall_app. split; [by eapply tracked_not_nullish |].
      by constructor. }
  simpl. fold h h1 l1 l2 o' h2. split; [exact Hfilter |].
  intros Hno. etrans; [exact Hfilter |]. by apply filter_keeps_all.
Qed.

Lemma subscribe_then_unsubscribe_witness :
  exists st1 st2,
    Record_subscribe silent_record [VStr "r"; VFun 0; VBool true]
      busy_facade = (Normal VUndef, st1)
    /\ Record_unsubscribe silent_record [VFun 0; VStr "r"] st1
       = (Normal VUndef, st2)
    /\ subscriptions st2
       = filter (fun e =>
                   has_pair (heap busy_facade)
                     (pair_of_args [VStr "r"; VFun 0; VBool true]) e
                   = false)
           (subscriptions busy_facade)
    /\ ((forall e, e ∈ subscriptions busy_facade ->
                   has_pair (heap busy_facade)
                     (pair_of_args [VStr "r"; VFun 0; VBool true]) e
                   = false) ->
        subscriptions st2 = subscriptions busy_facade).
Proof.
  apply (subscribe_then_unsubscribe silent_record
           [VStr "r"; VFun 0; VBool true] [VFun 0; VStr "r"] busy_facade).
  - unfold tracks_objects. vm_compute. repeat constructor.
  - reflexivity.
  - reflexivity.
  - reflexivity.
Defined.

(** ** The facade: a passed-through request is tracked by reference *)

(** How an object of the store compares with positional arguments
    [(p, f)] once they are normalized. *)
Lemma same_pair_positional (h : store) l o (p : string) f :
  h !! l = Some o ->
  same_pair
    (<[fresh (dom h) :=
         {| obj_class := NullProto;
            obj_props := foldl assign ∅ [VStr p; VFun f] |}]> h)
    (VObj l) (VObj (fresh (dom h)))
  = strict_eq (default VUndef (obj_props o !! "path")) (VStr p)
    && strict_eq (default VUndef (obj_props o !! "callback")) (VFun f).
Proof.
  intros Hl.
  assert (l <> fresh (dom h)) as Hne.
  { intros E. pose proof (is_fresh (dom h)) as Hf.
    rewrite <- E in Hf. apply Hf, elem_of_dom. by eexists. }
  unfold same_pair, prop_of.
  rewrite lookup_insert_eq, lookup_insert_ne, Hl by done. simpl.
  unfold assign. simpl.
  by rewrite lookup_insert_ne, !lookup_insert_eq by done.
Qed.

(** Whether a tracked object survives [unsubscribe(p, f)]. *)
Lemma unsubscribe_positional (reply : list call -> call -> value)
    (st : facade) l o (p : string) f :
  Forall (fun e => is_nullish e = false) (subscriptions st) ->
  heap st !! l = Some o ->
  (Record_unsubscribe reply [VStr p; VFun f] st).1 = Normal VUndef
  /\ (VObj l ∈ subscriptions (Record_unsubscribe reply [VStr p; VFun f] st).2
      <-> VObj l ∈ subscriptions st
          /\ strict_eq (default VUndef (obj_props o !! "path")) (VStr p)
             && strict_eq (default VUndef (obj_props o !! "callback"))
                  (VFun f) = false).
Proof.
  intros Hs Hl.
  erewrite unsubscribe_run;
    [| by apply normalizeArguments_scan | done | done].
  cbn [fst snd subscriptions]. split; [done |].
  rewrite list_elem_of_filter, (same_pair_positional _ _ _ _ _ Hl).
  tauto.
Qed.

(** X15.  A request object handed to [subscribe] is tracked by reference,
    and its path and callback are read when [unsubscribe] runs, not when
    it was subscribed.  On any facade whose tracked entries are not
    [null], after [subscribe(o)] for an object [o] with path [p] and
    callback [f]: [unsubscribe(p, f)] removes [o] from the tracked list;
    but if the caller has changed the path of [o] from [p] to [q] in
    between, [unsubscribe(p, f)] leaves [o] tracked and
    [unsubscribe(q, f)] removes it.  All three calls return normally. *)
Theorem tracked_request_is_shared
    (reply : list call -> call -> value) (st : facade) l o
    (p q : string) f :
  Forall (fun e => is_nullish e = false) (subscriptions st) ->
  heap st !! l = Some o ->
  obj_props o !! "path" = Some (VStr p) ->
  obj_props o !! "callback" = Some (VFun f) ->
  p <> q ->
  Record_subscribe reply [VObj l] st
  = (Normal VUndef,
     {| heap := heap st; subscriptions := subscriptions st ++ [VObj l];
        calls := calls st ++ [CallSubscribe (VObj l)] |})
  /\ ((Record_unsubscribe reply [VStr p; VFun f]
         (Record_subscribe reply [VObj l] st).2).1 = Normal VUndef
      /\ VObj l ∉ subscriptions
                    (Record_unsubscribe reply [VStr p; VFun f]
                       (Record_subscribe reply [VObj l] st).2).2)
  /\ ((Record_unsubscribe reply [VStr p; VFun f]
         (with_heap (set_prop l "path" (VStr q))
            (Record_subscribe reply [VObj l] st).2).2).1 = Normal VUndef
      /\ VObj l ∈ subscriptions
                    (Record_unsubscribe reply [VStr p; VFun f]
                       (with_heap (set_prop l "path" (VStr q))
                          (Record_subscribe reply [VObj l] st).2).2).2)
  /\ ((Record_unsubscribe reply [VStr q; VFun f]
         (with_heap (set_prop l "path" (VStr q))
            (Record_subscribe reply [VObj l] st).2).2).1 = Normal VUndef
      /\ VObj l ∉ subscriptions
                    (Record_unsubscribe reply [VStr q; VFun f]
                       (with_heap (set_prop l "path" (VStr q))
                          (Record_subscribe reply [VObj l] st).2).2).2).
Proof.
  intros Hs Hl Hp Hc Hpq.
  rewrite (subscribe_run reply [VObj l] st (VObj l) (heap st))
    by by apply normalizeArguments_single_object.
  split; [done |]. cbn [snd].
  assert (Forall (fun e => is_nullish e = false)
            (subscriptions st ++ [VObj l])) as Hs'.
  { apply Forall_app. split; [done | by constructor]. }
  assert (VObj l ∈ subscriptions st ++ [VObj l]) as Hin.
  { apply elem_of_app. right. left. }
  set (o' := {| obj_class := obj_class o;
                obj_props := <["path" := VStr q]> (obj_props o) |}).
  assert (forall s : string, strict_eq (VStr s) (VStr s) = true) as Hrefl.
  { intros s. unfold strict_eq. by rewrite bool_decide_eq_true_2. }
  assert (strict_eq (VFun f) (VFun f) = true) as Hf.
  { unfold strict_eq. by rewrite bool_decide_eq_true_2. }
  assert (strict_eq (VStr q) (VStr p) = false) as Hqp.
  { unfold strict_eq. rewrite bool_decide_eq_false_2; [done | congruence]. }
  set (st1 := {| heap := heap st;
                 subscriptions := subscriptions st ++ [VObj l];
                 calls := calls st ++ [CallSubscribe (VObj l)] |}).
  set (st2 := (with_heap (set_prop l "path" (VStr q)) st1).2).
  assert (heap st2 !! l = Some o') as Hl'.
  { unfold st2, st1. cbn. unfold set_prop, modify. cbn.
    by rewrite lookup_alter_eq, Hl. }
  split; [| split].
  - destruct (unsubscribe_positional reply st1 l o p f Hs' Hl)
      as [Hr Hiff].
    split; [exact Hr |]. rewrite Hiff.
    rewrite Hp, Hc. cbn [default from_option id]. rewrite Hrefl, Hf.
    by intros [_ ?].
  - destruct (unsubscribe_positional reply st2 l o' p f Hs' Hl')
      as [Hr Hiff].
    split; [exact Hr |]. apply Hiff. split; [exact Hin |].
    unfold o'. cbn [obj_props]. rewrite lookup_insert_eq.
    cbn [default from_option id]. by rewrite Hqp.
  - destruct (unsubscribe_positional reply st2 l o' q f Hs' Hl')
      as [Hr Hiff].
    split; [exact Hr |]. rewrite Hiff.
    unfold o'. cbn [obj_props].
    rewrite lookup_insert_eq, lookup_insert_ne, Hc by done.
    cbn [default from_option id]. rewrite Hrefl, Hf.
    by intros [_ ?].
Qed.

Lemma tracked_request_is_shared_witness :
  Record_subscribe silent_record [VObj 2%positive] busy_facade
  = (Normal VUndef,
     {| heap := heap busy_facade;
        subscriptions := subscriptions busy_facade ++ [VObj 2%positive];
        calls := calls busy_facade ++ [CallSubscribe (VObj 2%positive)] |})
  /\ ((Record_unsubscribe silent_record [VStr "q"; VFun 0]
         (Record_subscribe silent_record [VObj 2%positive]
            busy_facade).2).1 = Normal VUndef
      /\ VObj 2%positive
         ∉ subscriptions
             (Record_unsubscribe silent_record [VStr "q"; VFun 0]
                (Record_subscribe silent_record [VObj 2%positive]
                   busy_facade).2).2)
  /\ ((Record_unsubscribe silent_record [VStr "q"; VFun 0]
         (with_heap (set_prop 2%positive "path" (VStr "r"))
            (Record_subscribe silent_record [VObj 2%positive]
               busy_facade).2).2).1 = Normal VUndef
      /\ VObj 2%positive
         ∈ subscriptions
             (Record_unsubscribe silent_record [VStr "q"; VFun 0]
                (with_heap (set_prop 2%positive "path" (VStr "r"))
                   (Record_subscribe silent_record [VObj 2%positive]
                      busy_facade).2).2).2)
  /\ ((Record_unsubscribe silent_record [VStr "r"; VFun 0]
         (with_heap (set_prop 2%positive "path" (VStr "r"))
            (Record_subscribe silent_record [VObj 2%positive]
               busy_facade).2).2).1 = Normal VUndef
      /\ VObj 2%positive
         ∉ subscriptions
             (Record_unsubscribe silent_record [VStr "r"; VFun 0]
                (with_heap (set_prop 2%positive "path" (VStr "r"))
                   (Record_subscribe silent_record [VObj 2%positive]
                      busy_facade).2).2).2).
Proof.
  refine (tracked_request_is_shared silent_record busy_facade 2%positive
            {| obj_class := NullProto;
               obj_props := {[ "path" := VStr "q"; "callback" := VFun 0 ]} |}
            "q" "r" 0 _ _ _ _ _).
  - vm_compute. repeat constructor.
  - vm_compute. reflexivity.
  - reflexivity.
  - reflexivity.
  - discriminate.
Defined.

Example tracked_request_on_busy_facade :
  subscriptions
    (Record_unsubscribe silent_record [VStr "q"; VFun 0]
       (with_heap (set_prop 2%positive "path" (VStr "r"))
          (Record_subscribe silent_record [VObj 2%positive]
             busy_facade).2).2).2
  = [VObj 1%positive; VObj 2%positive; VObj 3%positive; VObj 2%positive]
  /\ subscriptions
       (Record_unsubscribe silent_record [VStr "r"; VFun 0]
          (with_heap (set_prop 2%positive "path" (VStr "r"))
             (Record_subscribe silent_record [VObj 2%positive]
                busy_facade).2).2).2
     = [VObj 1%positive; VObj 3%positive].
Proof. vm_compute. split; reflexivity. Qed.

(** ** [trim] *)

Lemma trim_class_white_space c : trim_class c = is_white_space c.
Proof.
  unfold trim_class, is_white_space.
  destruct (c =? 0xFEFF)%N eqn:E1; [by rewrite !orb_true_r |].
  destruct (c =? 0xA0)%N eqn:E2; [by rewrite !orb_true_r |].
  by rewrite !orb_false_r.
Qed.

Lemma drop_leading_all class s :
  forallb class s = true -> drop_leading class s = [].
Proof.
  induction s as [| c s IH]; [done |]. simpl.
  intros [-> Hs]%andb_true_iff. auto.
Qed.

Lemma drop_leading_app class s k :
  forallb class s = false ->
  drop_leading class (s ++ k) = drop_leading class s ++ k.
Proof.
  induction s as [| c s IH]; [done |]. simpl.
  destruct (class c); simpl; [apply IH | done].
Qed.

Lemma drop_leading_app_all class s k :
  forallb class s = true ->
  drop_leading class (s ++ k) = drop_leading class k.
Proof.
  induction s as [| c s IH]; [done |]. simpl.
  intros [-> Hs]%andb_true_iff. auto.
Qed.

Lemma forallb_reverse {A} (f : A -> bool) (l : list A) :
  forallb f (reverse l) = forallb f l.
Proof.
  induction l as [| x l IH]; [done |].
  rewrite reverse_cons, forallb_app, IH. simpl.
  rewrite andb_true_r. apply andb_comm.
Qed.

Lemma drop_trailing_match_all s :
  forallb trim_class s = true -> drop_trailing_match s = [].
Proof. destruct s; [done |]. simpl. by intros ->. Qed.

(** Removing the trailing match is dropping the leading run of the
    reversed string. *)
Lemma drop_trailing_match_reverse s :
  drop_trailing_match s
  = reverse (drop_leading trim_class (reverse s)).
Proof.
  induction s as [| c s IH]; [done |].
  rewrite reverse_cons.
  change (drop_trailing_match (c :: s))
    with (if forallb trim_class (c :: s) then []
          else c :: drop_trailing_match s).
  destruct (forallb trim_class s) eqn:Hs.
  - rewrite drop_leading_app_all by by rewrite forallb_reverse.
    simpl. rewrite Hs, andb_true_r.
    destruct (trim_class c); [done |].
    by rewrite drop_trailing_match_all.
  - rewrite drop_leading_app by by rewrite forallb_reverse.
    simpl. rewrite Hs, andb_false_r.
    by rewrite reverse_app, IH.
Qed.

Lemma drop_leading_ext (f g : N -> bool) s :
  (forall c, f c = g c) -> drop_leading f s = drop_leading g s.
Proof.
  intros Hfg. induction s as [| c s IH]; [done |]. simpl.
  rewrite Hfg, IH. reflexivity.
Qed.

Lemma replace_trim_expression_native s :
  replace_trim_expression s = String_trim s.
Proof.
  unfold replace_trim_expression, String_trim.
  rewrite drop_trailing_match_reverse.
  by rewrite !(drop_leading_ext trim_class is_white_space)
    by apply trim_class_white_space.
Qed.

(** X16.  [trim] does not depend on the engine: the fallback through
    [TRIM_REGULAR_EXPRESSION] gives on every string what
    [String.prototype.trim] gives. *)
Theorem trim_fallback_agrees (s : list N) :
  trim false s = trim true s.
Proof. apply replace_trim_expression_native. Qed.

Lemma drop_leading_split class s :
  exists pre, s = pre ++ drop_leading class s
              /\ forallb class pre = true.
Proof.
  induction s as [| c s (pre & Hs & Hpre)]; [by exists [] |]. simpl.
  destruct (class c) eqn:Hc.
  - exists (c :: pre). simpl. rewrite Hc, Hpre. split; [| done].
    by rewrite <- Hs.
  - by exists [].
Qed.

Lemma drop_leading_head class s c :
  head (drop_leading class s) = Some c -> class c = false.
Proof.
  induction s as [| d s IH]; [done |]. simpl.
  destruct (class d) eqn:Hd; [done |]. simpl. by intros [= <-].
Qed.

Lemma drop_leading_keeps_last class s c :
  last (drop_leading class s) = Some c -> last s = Some c.
Proof.
  destruct (drop_leading_split class s) as (pre & Hs & _).
  intros Hl. rewrite Hs. rewrite last_app, Hl. done.
Qed.

Lemma String_trim_split s :
  exists pre post,
    s = pre ++ String_trim s ++ post
    /\ forallb is_white_space pre = true
    /\ forallb is_white_space post = true.
Proof.
  unfold String_trim.
  destruct (drop_leading_split is_white_space s) as (pre & Hs & Hpre).
  set (t := drop_leading is_white_space s) in *.
  destruct (drop_leading_split is_white_space (reverse t))
    as (post & Ht & Hpost).
  exists pre, (reverse post). split; [| split; [done |]].
  - rewrite <- reverse_app, <- Ht, reverse_involutive. exact Hs.
  - by rewrite forallb_reverse.
Qed.

Lemma String_trim_ends s c :
  head (String_trim s) = Some c \/ last (String_trim s) = Some c ->
  is_white_space c = false.
Proof.
  unfold String_trim. intros [Hc | Hc].
  - rewrite head_reverse in Hc.
    apply drop_leading_keeps_last in Hc. rewrite last_reverse in Hc.
    by eapply drop_leading_head.
  - rewrite last_reverse in Hc. by eapply drop_leading_head.
Qed.

Lemma trim_native (has_trim : bool) s : trim has_trim s = String_trim s.
Proof. destruct has_trim; [done | apply replace_trim_expression_native]. Qed.

(** X17.  What [trim] returns is the string without a prefix and a suffix
    made of white space only, and it neither starts nor ends with white
    space: exactly the white space at the two ends is removed, the rest
    is kept as it is. *)
Theorem trim_removes_the_ends (has_trim : bool) (s : list N) :
  (exists pre post,
      s = pre ++ trim has_trim s ++ post
      /\ forallb is_white_space pre = true
      /\ forallb is_white_space post = true)
  /\ (forall c, head (trim has_trim s) = Some c -> is_white_space c = false)
  /\ (forall c, last (trim has_trim s) = Some c -> is_white_space c = false).
Proof.
  rewrite trim_native. split; [apply String_trim_split |].
  split; intros c Hc; apply (String_trim_ends s); auto.
Qed.

Lemma drop_leading_id class s :
  (forall c, head s = Some c -> class c = false) ->
  drop_leading class s = s.
Proof. destruct s as [| c s]; [done |]. simpl. intros H. by rewrite H. Qed.

(** X18.  [trim] is idempotent: trimming a trimmed string changes
    nothing, with or without [String.prototype.trim] at either step. *)
Theorem trim_idempotent (has_trim has_trim' : bool) (s : list N) :
  trim has_trim' (trim has_trim s) = trim has_trim s.
Proof.
  rewrite !trim_native. unfold String_trim at 1.
  rewrite (drop_leading_id _ (String_trim s)).
  - rewrite drop_leading_id; [apply reverse_involutive |].
    intros c Hc. rewrite head_reverse in Hc.
    apply (String_trim_ends s). by right.
  - intros c Hc. apply (String_trim_ends s). by left.
Qed.

(** ** [parseUrl] *)

Lemma prefix_append (p s : string) : String.prefix p (p +:+ s) = true.
Proof.
  induction p as [| a p IH]; [by destruct s |].
  change (String a p +:+ s) with (String a (p +:+ s)). simpl.
  by destruct (Ascii.ascii_dec a a).
Qed.

Lemma with_protocol_bare url :
  hasUrlProtocol url = false -> with_protocol url = "ws://" +:+ url.
Proof. unfold with_protocol. by intros ->. Qed.

Lemma with_protocol_slashes url :
  with_protocol ("//" +:+ url) = "ws://" +:+ url.
Proof.
  unfold with_protocol, hasUrlProtocol.
  rewrite (prefix_append "//" url).
  assert (String.prefix "wss:" ("//" +:+ url) = false) as ->
    by (vm_compute; reflexivity).
  assert (String.prefix "ws:" ("//" +:+ url) = false) as ->
    by (vm_compute; reflexivity).
  reflexivity.
Qed.

Lemma with_protocol_ws url :
  with_protocol ("ws:" +:+ url) = "ws:" +:+ url.
Proof.
  unfold with_protocol, hasUrlProtocol.
  rewrite (prefix_append "ws:" url).
  assert (String.prefix "wss:" ("ws:" +:+ url) = false) as ->
    by (vm_compute; reflexivity).
  assert (String.prefix "//" ("ws:" +:+ url) = false) as ->
    by (vm_compute; reflexivity).
  reflexivity.
Qed.

Lemma with_protocol_ws_slashes url :
  with_protocol ("ws://" +:+ url) = "ws://" +:+ url.
Proof. exact (with_protocol_ws ("//" +:+ url)). Qed.

Lemma with_protocol_cases url :
  (hasUrlProtocol url = false /\ with_protocol url = "ws://" +:+ url)
  \/ (String.prefix "//" url = true /\ with_protocol url = "ws:" +:+ url)
  \/ (String.prefix "//" url = false
      /\ (String.prefix "ws:" url = true \/ String.prefix "wss:" url = true)
      /\ with_protocol url = url).
Proof.
  unfold with_protocol, hasUrlProtocol.
  destruct (String.prefix "wss:" url) eqn:Hwss;
    destruct (String.prefix "ws:" url) eqn:Hws;
    destruct (String.prefix "//" url) eqn:Hsl; simpl; auto 10.
Qed.

Lemma with_protocol_starts_with_ws url :
  String.prefix "ws:" (with_protocol url) = true
  \/ String.prefix "wss:" (with_protocol url) = true.
Proof.
  destruct (with_protocol_cases url)
    as [[_ ->] | [[_ ->] | (_ & H & ->)]].
  - left. apply (prefix_append "ws:" ("//" +:+ url)).
  - left. apply prefix_append.
  - exact H.
Qed.

Lemma with_protocol_idempotent url :
  with_protocol (with_protocol url) = with_protocol url.
Proof.
  destruct (with_protocol_cases url)
    as [[_ ->] | [[_ ->] | (Hsl & H & Hw)]].
  - apply with_protocol_ws_slashes.
  - apply with_protocol_ws.
  - rewrite Hw. exact Hw.
Qed.

(** X19.  [parseUrl] refuses every address that starts with ["http:"] or
    ["https:"] before anything is parsed.  Whatever else it is given, the
    text it hands to [URL.parse] starts with ["ws:"] or ["wss:"], and
    completing the protocol a second time changes nothing. *)
Theorem parseUrl_protocols (other : Type)
    (URL_parse : string -> completion (Url other))
    (URL_format : Url other -> string) (url defaultPath : string) :
  (unsupportedProtocol url = true ->
   parseUrl other URL_parse URL_format url defaultPath
   = Throw (Error "Only ws and wss are supported"))
  /\ (String.prefix "ws:" (with_protocol url) = true
      \/ String.prefix "wss:" (with_protocol url) = true)
  /\ with_protocol (with_protocol url) = with_protocol url
  /\ (unsupportedProtocol url = false ->
      forall parse',
        parse' (with_protocol url) = URL_parse (with_protocol url) ->
        parseUrl other parse' URL_format url defaultPath
        = parseUrl other URL_parse URL_format url defaultPath).
Proof.
  split; [| split; [| split]].
  - unfold parseUrl. by intros ->.
  - apply with_protocol_starts_with_ws.
  - apply with_protocol_idempotent.
  - intros Hu parse' Hp. unfold parseUrl. by rewrite Hu, Hp.
Qed.

(** X20.  A bare address, the same address behind ["//"] and behind
    ["ws://"] are parsed alike: [parseUrl("localhost:6020", p)],
    [parseUrl("//localhost:6020", p)] and
    [parseUrl("ws://localhost:6020", p)] give the same result. *)
Theorem parseUrl_default_protocol (other : Type)
    (URL_parse : string -> completion (Url other))
    (URL_format : Url other -> string) (url defaultPath : string) :
  hasUrlProtocol url = false ->
  unsupportedProtocol url = false ->
  parseUrl other URL_parse URL_format ("//" +:+ url) defaultPath
  = parseUrl other URL_parse URL_format url defaultPath
  /\ parseUrl other URL_parse URL_format ("ws://" +:+ url) defaultPath
     = parseUrl other URL_parse URL_format url defaultPath.
Proof.
  intros Hp Hu. unfold parseUrl. rewrite Hu.
  assert (unsupportedProtocol ("//" +:+ url) = false) as ->
    by (vm_compute; reflexivity).
  assert (unsupportedProtocol ("ws://" +:+ url) = false) as ->
    by (vm_compute; reflexivity).
  rewrite with_protocol_slashes, with_protocol_ws_slashes.
  by rewrite (with_protocol_bare url Hp).
Qed.

Lemma parseUrl_default_protocol_witness :
  parseUrl unit toy_parse toy_format ("//" +:+ "localhost:6020") "/ds"
  = parseUrl unit toy_parse toy_format "localhost:6020" "/ds"
  /\ parseUrl unit toy_parse toy_format ("ws://" +:+ "localhost:6020") "/ds"
     = parseUrl unit toy_parse toy_format "localhost:6020" "/ds".
Proof.
  apply (parseUrl_default_protocol unit toy_parse toy_format
           "localhost:6020" "/ds"); reflexivity.
Defined.

(** X21.  [parseUrl] returns exactly when the address is not refused,
    [URL.parse] returns an object and that object has a non-empty host.
    What it returns is [URL.format] of that object with its protocol
    replaced by ["ws:"] if it was empty or [null], its pathname replaced
    by the default path if it was empty or [null], and its host and other
    fields unchanged; so the protocol formatted is never empty. *)
Theorem parseUrl_result (other : Type)
    (URL_parse : string -> completion (Url other))
    (URL_format : Url other -> string) (url defaultPath result : string) :
  parseUrl other URL_parse URL_format url defaultPath = Normal result
  <-> unsupportedProtocol url = false
      /\ exists parsed formatted,
           URL_parse (with_protocol url) = Normal parsed
           /\ truthy_field (url_host parsed) = true
           /\ formatted
              = {| url_protocol :=
                     if truthy_field (url_protocol parsed)
                     then url_protocol parsed else Some "ws:";
                   url_host := url_host parsed;
                   url_pathname :=
                     if truthy_field (url_pathname parsed)
                     then url_pathname parsed else Some defaultPath;
                   url_other := url_other parsed |}
           /\ result = URL_format formatted
           /\ truthy_field (url_protocol formatted) = true.
Proof.
  unfold parseUrl. split.
  - destruct (unsupportedProtocol url); [discriminate |].
    destruct (URL_parse (with_protocol url)) as [parsed | e];
      [| discriminate].
    destruct (truthy_field (url_host parsed)) eqn:Hhost; [| discriminate].
    simpl. intros [= <-]. split; [done |]. eexists parsed, _.
    split; [done |]. split; [done |]. split; [reflexivity |].
    split; [reflexivity |]. simpl.
    by destruct (truthy_field (url_protocol parsed)) eqn:E.
  - intros (-> & parsed & formatted & -> & -> & -> & -> & _). done.
Qed.

(** Without a host there is no result: whenever [URL.parse] returns an
    object whose host is [null] or empty, [parseUrl] throws "invalid url,
    missing host", whatever the default path. *)
Lemma parseUrl_missing_host (other : Type)
    (URL_parse : string -> completion (Url other))
    (URL_format : Url other -> string) (url defaultPath : string) parsed :
  unsupportedProtocol url = false ->
  URL_parse (with_protocol url) = Normal parsed ->
  truthy_field (url_host parsed) = false ->
  parseUrl other URL_parse URL_format url defaultPath
  = Throw (Error "invalid url, missing host").
Proof.
  intros Hu Hp Hh. unfold parseUrl. by rewrite Hu, Hp, Hh.
Qed.

Lemma parseUrl_missing_host_witness :
  parseUrl unit toy_parse toy_format "ws://" "/ds"
  = Throw (Error "invalid url, missing host").
Proof.
  apply (parseUrl_missing_host unit toy_parse toy_format "ws://" "/ds"
           {| url_protocol := Some "ws:"; url_host := Some "";
              url_pathname := None; url_other := tt |});
    reflexivity.
Defined.

(** ** [deepEquals] *)

Lemma strict_eq_sym a b : strict_eq a b = strict_eq b a.
Proof.
  assert (bool_decide (a = b) = bool_decide (b = a)) as Hd
    by (apply bool_decide_ext; split; congruence).
  unfold strict_eq.
  destruct a as [| | | [|] | | | |], b as [| | | [|] | | | |];
    try reflexivity; exact Hd.
Qed.

Lemma strict_eq_true a b : strict_eq a b = true -> a = b.
Proof.
  unfold strict_eq.
  destruct a as [| | | [|] | | | |], b as [| | | [|] | | | |];
    try discriminate; by intros ?%bool_decide_eq_true.
Qed.

Lemma strict_eq_refl a : a <> VNum NaN -> strict_eq a a = true.
Proof.
  intros Ha. unfold strict_eq.
  destruct a as [| | | [|] | | | |]; try done;
    by rewrite bool_decide_eq_true_2.
Qed.

(** X22.  [deepEquals] is symmetric: whenever [deepEquals(a, b)] returns,
    [deepEquals(b, a)] returns the same answer. *)
Theorem deepEquals_symmetric
    (JSON_stringify : store -> value -> completion (option string))
    a b (h : store) r :
  deepEquals JSON_stringify a b h = Normal r ->
  deepEquals JSON_stringify b a h = Normal r.
Proof.
  unfold deepEquals. rewrite (strict_eq_sym b a).
  destruct (strict_eq a b); [done |].
  rewrite (orb_comm (negb (bool_decide (typeof b = TObject)))).
  destruct (negb _ || negb _); [done |].
  destruct (JSON_stringify h a) as [sa | ?]; [| done].
  destruct (JSON_stringify h b) as [sb | ?]; [| done].
  intros [= <-]. f_equal. apply bool_decide_ext. split; congruence.
Qed.

Lemma deepEquals_symmetric_witness :
  deepEquals toy_stringify (VObj 2%positive) (VObj 1%positive) ∅
  = Normal true.
Proof.
  apply (deepEquals_symmetric toy_stringify (VObj 1%positive)
           (VObj 2%positive) ∅ true).
  reflexivity.
Defined.

(** X23.  [deepEquals] is transitive: if it answers [true] for [a], [b]
    and for [b], [c], it answers [true] for [a], [c]. *)
Theorem deepEquals_transitive
    (JSON_stringify : store -> value -> completion (option string))
    a b c (h : store) :
  deepEquals JSON_stringify a b h = Normal true ->
  deepEquals JSON_stringify b c h = Normal true ->
  deepEquals JSON_stringify a c h = Normal true.
Proof.
  unfold deepEquals.
  destruct (strict_eq a b) eqn:Hab.
  { apply strict_eq_true in Hab as ->. done. }
  destruct (strict_eq b c) eqn:Hbc.
  { apply strict_eq_true in Hbc as ->. by rewrite Hab. }
  destruct (bool_decide (typeof a = TObject)); [| done].
  destruct (bool_decide (typeof b = TObject)); [| done].
  destruct (bool_decide (typeof c = TObject)); [| done]. simpl.
  destruct (JSON_stringify h a) as [sa | ?]; [| done].
  destruct (JSON_stringify h b) as [sb | ?]; [| done].
  destruct (JSON_stringify h c) as [sc | ?]; [| done].
  intros [= Hab'] [= Hbc'].
  apply bool_decide_eq_true in Hab', Hbc'. subst.
  destruct (strict_eq a c); [done |].
  by rewrite bool_decide_eq_true_2.
Qed.

Lemma deepEquals_transitive_witness :
  deepEquals toy_stringify (VObj 1%positive) (VObj 3%positive) ∅
  = Normal true.
Proof.
  apply (deepEquals_transitive toy_stringify (VObj 1%positive)
           (VObj 2%positive) (VObj 3%positive) ∅); reflexivity.
Defined.

(** X24.  [deepEquals] serializes only two distinct values of type
    ['object'].  A value equals itself without serialization (so also a
    cyclic object, which [JSON.stringify] would refuse), except [NaN],
    which is not even equal to itself; and when one of the two is not of
    type ['object'] the answer is that of [===]. *)
Theorem deepEquals_without_serializing
    (JSON_stringify : store -> value -> completion (option string))
    a b (h : store) :
  deepEquals JSON_stringify a a h
  = Normal (negb (bool_decide (a = VNum NaN)))
  /\ (typeof a <> TObject \/ typeof b <> TObject ->
      deepEquals JSON_stringify a b h = Normal (strict_eq a b)).
Proof.
  unfold deepEquals. split.
  - destruct (decide (a = VNum NaN)) as [-> | Ha]; [done |].
    by rewrite strict_eq_refl, bool_decide_eq_false_2.
  - intros Ht. destruct (strict_eq a b); [done |].
    destruct Ht as [Ht | Ht]; rewrite (bool_decide_eq_false_2 _ Ht);
      simpl; by rewrite ?orb_true_r.
Qed.

(** ** [shallowCopy] *)

Lemma copy_loop (l c : loc) (o : object) names : forall ps (h : store),
  l <> c -> h !! l = Some o ->
  for_each (fun name => do v <- get_prop name (VObj l);
                        set_prop c name v) names
    (<[c := {| obj_class := NullProto; obj_props := ps |}]> h)
  = (Normal tt,
     <[c := {| obj_class := NullProto;
               obj_props := foldl (copy_step (obj_props o)) ps names |}]>
       h).
Proof.
  induction names as [| name names IH]; intros ps h Hne Hl; [done |].
  simpl. unfold bind at 1. unfold bind at 1. unfold get_prop.
  rewrite lookup_insert_ne, Hl by done. simpl.
  unfold set_prop, modify. rewrite alter_insert_eq. simpl.
  by rewrite IH.
Qed.

Lemma copy_fold_lookup (m : gmap string value) names k : forall ps,
  foldl (copy_step m) ps names !! k
  = if decide (k ∈ names) then Some (default VUndef (m !! k))
    else ps !! k.
Proof.
  induction names as [| name names IH] using rev_ind; intros ps.
  { rewrite decide_False; [done | apply not_elem_of_nil]. }
  rewrite foldl_snoc. unfold copy_step at 1.
  destruct (decide (k = name)) as [-> | Hne].
  - rewrite lookup_insert_eq, decide_True; [done |].
    apply elem_of_app. right. left.
  - rewrite lookup_insert_ne, IH by done.
    destruct (decide (k ∈ names)) as [Hin | Hin].
    + rewrite decide_True; [done |]. apply elem_of_app. by left.
    + rewrite decide_False; [done |].
      intros [? | ?%list_elem_of_singleton]%elem_of_app; done.
Qed.

(** Copying every own property rebuilds the property map. *)
Lemma copy_fold_all (m : gmap string value) :
  foldl (copy_step m) ∅ (map_to_list m).*1 = m.
Proof.
  apply map_eq. intros k. rewrite copy_fold_lookup.
  destruct (decide (k ∈ (map_to_list m).*1)) as [Hin | Hin].
  - apply list_elem_of_fmap in Hin as ([k' v] & -> & Hin).
    apply elem_of_map_to_list in Hin. simpl. by rewrite Hin.
  - rewrite lookup_empty. symmetry. apply eq_None_not_Some.
    intros [v Hv]. apply Hin. apply list_elem_of_fmap.
    exists (k, v). split; [done |]. by apply elem_of_map_to_list.
Qed.

(** X25.  [shallowCopy] of an object that is not an array returns a new
    object at an address that was unused, without prototype and with the
    same own properties holding the same values (a nested object is
    shared, not copied); the original and every other object of the store
    stay as they were. *)
Theorem shallowCopy_object (Array_slice0 : loc -> M store value)
    (h : store) l o :
  h !! l = Some o ->
  obj_class o <> ArrayObject ->
  exists c,
    h !! c = None
    /\ shallowCopy Array_slice0 (VObj l) h
       = (Normal (VObj c),
          <[c := {| obj_class := NullProto; obj_props := obj_props o |}]>
            h).
Proof.
  intros Hl Hclass. exists (fresh (dom h)).
  assert (h !! fresh (dom h) = None) as Hfresh
    by apply not_elem_of_dom, is_fresh.
  split; [done |].
  assert (l <> fresh (dom h)) as Hne by (intros E; congruence).
  unfold shallowCopy. unfold bind at 1. unfold gets, isArray.
  rewrite Hl.
  destruct (obj_class o) eqn:Hc; try done; simpl;
    unfold bind at 1; unfold object_create_null;
    unfold bind at 1; unfold Object_keys;
    rewrite lookup_insert_ne, Hl by done;
    unfold bind at 1;
    rewrite (copy_loop l (fresh (dom h)) o) by done;
    by rewrite copy_fold_all.
Qed.

Lemma shallowCopy_object_witness :
  exists c,
    example_store !! c = None
    /\ shallowCopy toy_slice (VObj 1%positive) example_store
       = (Normal (VObj c),
          <[c := {| obj_class := NullProto;
                    obj_props :=
                      {[ "path" := VStr "p"; "callback" := VFun 0 ]} |}]>
            example_store).
Proof.
  refine (shallowCopy_object toy_slice example_store 1%positive
            {| obj_class := PlainObject;
               obj_props :=
                 {[ "path" := VStr "p"; "callback" := VFun 0 ]} |} _ _).
  - reflexivity.
  - discriminate.
Defined.

(** X26.  [shallowCopy(null)] throws a [TypeError] ([null] has type
    ['object'] and is handed to [Object.keys]); a value of any other type
    than ['object'] (a primitive, a function) is returned as it is and
    the store is not touched. *)
Theorem shallowCopy_edges (Array_slice0 : loc -> M store value)
    (h : store) :
  (shallowCopy Array_slice0 VNull h).1 = Throw TypeError
  /\ forall v, typeof v <> TObject ->
               shallowCopy Array_slice0 v h = (Normal v, h).
Proof.
  split; [done |]. intros v Hv. by destruct v.
Qed.

(** ** The set normalizer against the documented table *)


